(** * tiny-lib: the header-only utilities of namespace [Util]

    Shallow embedding of
      - [FifoMultiThreaded.hpp]    (mutex-guarded FIFO queue),
      - [CallbackWithTimeout.hpp]  (recurring callback on a worker thread),
      - [ILogProvider.hpp]         (log level names),
      - [Log4CppLoggerProvider.hpp] (log4cpp adapter),
      - [RapidJsonProvider.hpp]    (path lookup in a JSON document),
    followed by the properties established about them. *)

From Stdlib Require Import Bool Arith ZArith Lia Ascii String DecimalString List.
Import ListNotations.

Set Implicit Arguments.
Local Open Scope string_scope.
Local Open Scope list_scope.

(* ===================================================================== *)
(** * FifoMultiThreaded.hpp *)
(* ===================================================================== *)

(** Every member function takes [std::lock_guard<std::recursive_mutex>] on
    the one [mutex_] for the whole of its access to [queue_], so calls from
    different threads are serialised by the lock: an execution of the
    object is a sequence of calls, each running on the state its
    predecessor left.  [queue_] is a [std::queue<T, std::list<T>>]; its
    front is the head of the list, [push] appends at the back. *)
Module Fifo.
Section WithElements.

Variable T : Type.

(** The member [queue_]. *)
Definition queue := list T.

(** [FifoMultiThreaded()] : the default-constructed [queue_]. *)
Definition construct : queue := [].

(** [bool push(const T &element)] : [queue_.push(element); return true]. *)
Definition push (element : T) (queue_ : queue) : bool * queue :=
  (true, queue_ ++ [element]).

(** [bool pop(T &element)] : the result is the status, the content of the
    caller's [element] after the call, and the queue. *)
Definition pop (element : T) (queue_ : queue) : bool * T * queue :=
  let status := false in
  match queue_ with
  | front :: rest => (true, front, rest)
  | [] => (status, element, queue_)
  end.

(** [bool empty() const]. *)
Definition empty (queue_ : queue) : bool :=
  match queue_ with [] => true | _ :: _ => false end.

(** [unsigned long long size() const] : [queue_.size()], the number of
    stored elements (a [size_type], which [unsigned long long] holds). *)
Definition size (queue_ : queue) : Z := Z.of_nat (length queue_).

(** A call on the object, as some thread issues it.  [Pop out] carries
    the content of the caller's output variable before the call. *)
Inductive call :=
| Push (element : T)
| Pop (out : T).

(** What the call returned: the status, and for [pop] the output
    variable after the call. *)
Inductive ret :=
| PushRet (status : bool)
| PopRet (status : bool) (out : T).

Definition exec (c : call) (queue_ : queue) : ret * queue :=
  match c with
  | Push x => let '(st, q) := push x queue_ in (PushRet st, q)
  | Pop out => let '(st, out', q) := pop out queue_ in (PopRet st out', q)
  end.

(** A history: the calls in the order in which they held the lock. *)
Fixpoint run (calls : list call) (queue_ : queue) : list ret * queue :=
  match calls with
  | [] => ([], queue_)
  | c :: calls' =>
      let '(r, q) := exec c queue_ in
      let '(rs, q') := run calls' q in
      (r :: rs, q')
  end.

(** The items pushed by a history, in push order. *)
Fixpoint pushed (calls : list call) : list T :=
  match calls with
  | [] => []
  | Push x :: calls' => x :: pushed calls'
  | Pop _ :: calls' => pushed calls'
  end.

(** The items the successful pops returned, in order. *)
Fixpoint popped (rets : list ret) : list T :=
  match rets with
  | [] => []
  | PopRet true x :: rets' => x :: popped rets'
  | _ :: rets' => popped rets'
  end.

(** The number of pushes that reported success. *)
Fixpoint pushes_ok (rets : list ret) : nat :=
  match rets with
  | [] => 0
  | PushRet true :: rets' => S (pushes_ok rets')
  | _ :: rets' => pushes_ok rets'
  end.

(** The number of pops that reported success. *)
Fixpoint pops_ok (rets : list ret) : nat :=
  match rets with
  | [] => 0
  | PopRet true _ :: rets' => S (pops_ok rets')
  | _ :: rets' => pops_ok rets'
  end.

(** [l1] is an initial segment of [l2]. *)
Definition prefix_of (l1 l2 : list T) : Prop := exists rest, l2 = l1 ++ rest.

End WithElements.

Arguments construct {T}.
Arguments Pop {T} out.
Arguments PushRet {T} status.
End Fifo.

(* ===================================================================== *)
(** * CallbackWithTimeout.hpp *)
(* ===================================================================== *)

Module CallbackWithTimeout.

(** ** The worker thread (the lambda handed to [std::thread] in [start]) *)

(** What the worker does that can be seen from outside. *)
Inductive event :=
| Invoke                (* callback(param) *)
| Sleep (ms : Z).       (* std::this_thread::sleep_for(milliseconds(ms)) *)

(** [const long timeSliceMilliseconds(25)]. *)
Definition timeSliceMilliseconds : Z := 25.

(** [const long long maxSteps = timeoutMilliseconds / timeSliceMilliseconds]:
    integer division of C++, which truncates towards zero. *)
Definition maxSteps (timeoutMilliseconds : Z) : Z :=
  Z.quot timeoutMilliseconds timeSliceMilliseconds.

(** The worker reads the shared flag with [execute_.load(acquire)] and never
    writes it.  [loads] lists the values its successive loads return, in
    program order; the trace is what the worker has done when the listed
    loads are used up.

    [worker] is the outer [while (execute_.load())]: one load, and when it
    is set the callback runs and the sleep loop starts with [step = 0].
    [sleeping] is the inner
    [while (execute_.load() && step++ < maxSteps) sleep_for(25ms)]:
    one load, then the comparison of the old [step]; when either fails
    control is back at the outer loop's test.  [step] is a [long] counting
    from 0, here an unbounded integer (it stays below the number of
    loads). *)
Fixpoint worker (timeoutMilliseconds : Z) (loads : list bool) : list event :=
  match loads with
  | [] => []
  | false :: _ => []
  | true :: loads' => Invoke :: sleeping timeoutMilliseconds 0 loads'
  end
with sleeping (timeoutMilliseconds : Z) (step : Z) (loads : list bool)
  : list event :=
  match loads with
  | [] => []
  | execute :: loads' =>
      if execute && (step <? maxSteps timeoutMilliseconds)%Z
      then Sleep timeSliceMilliseconds
             :: sleeping timeoutMilliseconds (step + 1) loads'
      else worker timeoutMilliseconds loads'
  end.

(** Milliseconds of sleep requested in a trace. *)
Fixpoint slept (tr : list event) : Z :=
  match tr with
  | [] => 0
  | Invoke :: tr' => slept tr'
  | Sleep ms :: tr' => ms + slept tr'
  end.

(** Number of callback invocations in a trace. *)
Fixpoint invocations (tr : list event) : nat :=
  match tr with
  | [] => 0
  | Invoke :: tr' => S (invocations tr')
  | Sleep _ :: tr' => invocations tr'
  end.

(** The sleep requested between the first and the second callback
    invocation of a trace; [None] when it has no two invocations. *)
Fixpoint sleep_to_next_invoke (tr : list event) : option Z :=
  match tr with
  | [] => None
  | Invoke :: _ => Some 0%Z
  | Sleep ms :: tr' => option_map (Z.add ms) (sleep_to_next_invoke tr')
  end.

Definition sleep_between_first_two (tr : list event) : option Z :=
  match tr with
  | Invoke :: tr' => sleep_to_next_invoke tr'
  | _ => None
  end.

(** ** The executor object, as its owner drives it *)

(** Worker threads are named by their creation rank. *)
Definition tid := nat.

(** The steps of [start] and [stop] that matter for the workers. *)
Inductive action :=
| StoreExecute (b : bool)                 (* execute_.store(b, release) *)
| Join (t : tid)                          (* thread_.join() returned    *)
| Spawn (t : tid) (timeoutMilliseconds : Z). (* thread_ = std::thread(..) *)

(** [execute_] and [thread_] are the two members; [thread_ = Some t] is a
    joinable handle on worker [t], [None] a handle that is not joinable.
    [live] are the workers created and not yet finished, [spawned] counts
    the workers created so far, [log] records the actions taken. *)
Record state := {
  execute_ : bool;
  thread_ : option tid;
  live : list tid;
  spawned : nat;
  log : list action
}.

(** A member function returns, or the process dies in [std::terminate]
    (assigning to, or destroying, a joinable [std::thread]; an exception
    leaving a [noexcept] function), or the caller waits for ever in
    [join]. *)
Inductive outcome :=
| Returns (s : state)
| Terminate
| Blocked.

Definition bind (o : outcome) (k : state -> outcome) : outcome :=
  match o with
  | Returns s => k s
  | Terminate => Terminate
  | Blocked => Blocked
  end.

(** [CallbackWithTimeout() : execute_(false)]. *)
Definition construct : state :=
  {| execute_ := false; thread_ := None; live := []; spawned := 0; log := [] |}.

Definition joinable (s : state) : bool :=
  match thread_ s with Some _ => true | None => false end.

Definition store_execute (b : bool) (s : state) : state :=
  {| execute_ := b; thread_ := thread_ s; live := live s;
     spawned := spawned s; log := log s ++ [StoreExecute b] |}.

(** [thread_.join()]: returns once the worker has left its loop, which it
    does only after loading [execute_ = false]; the handle is then not
    joinable.  On a handle that is not joinable [join] throws. *)
Definition join (s : state) : outcome :=
  match thread_ s with
  | None => Terminate
  | Some t =>
      if execute_ s then Blocked
      else Returns {| execute_ := execute_ s; thread_ := None;
                      live := filter (fun u => negb (Nat.eqb u t)) (live s);
                      spawned := spawned s; log := log s ++ [Join t] |}
  end.

(** [void stop() noexcept]. *)
Definition stop (s : state) : outcome :=
  let s1 := store_execute false s in
  if joinable s1 then join s1 else Returns s1.

(** [thread_ = std::thread(lambda)]: a new worker starts; move assignment
    to a joinable handle calls [std::terminate]. *)
Definition assign_thread (timeoutMilliseconds : Z) (s : state) : outcome :=
  match thread_ s with
  | Some _ => Terminate
  | None =>
      Returns {| execute_ := execute_ s; thread_ := Some (spawned s);
                 live := live s ++ [spawned s];
                 spawned := S (spawned s);
                 log := log s ++ [Spawn (spawned s) timeoutMilliseconds] |}
  end.

(** [void start(long long timeoutMilliseconds, callback, param) noexcept]. *)
Definition start (timeoutMilliseconds : Z) (s : state) : outcome :=
  bind (if execute_ s then stop s else Returns s)
       (fun s1 => assign_thread timeoutMilliseconds (store_execute true s1)).

(** [void start(callback, param) noexcept]: [this->start(0, callback, param)]. *)
Definition start_immediate (s : state) : outcome := start 0 s.

(** [bool isRunning() const noexcept]. *)
Definition isRunning (s : state) : bool := execute_ s && joinable s.

(** [~CallbackWithTimeout()], followed by the destruction of [thread_]. *)
Definition destroy (s : state) : outcome :=
  bind (if execute_ s then stop s else Returns s)
       (fun s1 => if joinable s1 then Terminate else Returns s1).

(** Calls by the owner, one after the other. *)
Inductive call :=
| Start (timeoutMilliseconds : Z)
| StartImmediate
| Stop
| IsRunning.

Definition exec (c : call) (s : state) : outcome :=
  match c with
  | Start ms => start ms s
  | StartImmediate => start_immediate s
  | Stop => stop s
  | IsRunning => let _ := isRunning s in Returns s
  end.

Fixpoint run (calls : list call) (s : state) : outcome :=
  match calls with
  | [] => Returns s
  | c :: calls' => bind (exec c s) (run calls')
  end.

(** The workers the handle owns. *)
Definition owned (s : state) : list tid :=
  match thread_ s with Some t => [t] | None => [] end.

(** What [start] does before it marks the object running: nothing on an
    idle object, the full stop of the current worker otherwise. *)
Definition stop_first (s : state) : list action :=
  if execute_ s then StoreExecute false :: map Join (owned s) else [].

(** What holds between two calls of the owner: the live workers are those
    the handle owns, the flag is set exactly when the handle is joinable,
    and the owned worker is one that was created. *)
Record inv (s : state) : Prop := {
  inv_live : live s = owned s;
  inv_flag : execute_ s = joinable s;
  inv_rank : forall t, thread_ s = Some t -> (t < spawned s)%nat
}.

(** Whether the last [start] or [stop] of a history of calls was a [start];
    [running] when the history has neither. *)
Fixpoint running_after (calls : list call) (running : bool) : bool :=
  match calls with
  | [] => running
  | Start _ :: calls' => running_after calls' true
  | StartImmediate :: calls' => running_after calls' true
  | Stop :: calls' => running_after calls' false
  | IsRunning :: calls' => running_after calls' running
  end.

End CallbackWithTimeout.

(* ===================================================================== *)
(** * ILogProvider.hpp *)
(* ===================================================================== *)

Module ILogProvider.

(** [namespace Literals]. *)
Module Literals.
Definition allTag : string := "all".
Definition traceTag : string := "trace".
Definition debugTag : string := "debug".
Definition infoTag : string := "info".
Definition warnTag : string := "warn".
Definition errorTag : string := "error".
Definition fatalTag : string := "fatal".
Definition offTag : string := "off".
End Literals.

(** [enum LogLevel], by the values of its enumerators. *)
Definition LL_ALL : Z := 0x7F.
Definition LL_TRACE : Z := 0x3F.
Definition LL_DEBUG : Z := 0x1F.
Definition LL_INFO : Z := 0xF.
Definition LL_WARN : Z := 0x7.
Definition LL_ERROR : Z := 0x3.
Definition LL_FATAL : Z := 0x1.
Definition LL_OFF : Z := 0x0.

(** [std::string::compare]: negative, zero or positive as the receiver is
    lexicographically below, equal to or above the argument. *)
Definition compare (s arg : string) : Z :=
  match String.compare s arg with
  | Lt => -1
  | Eq => 0
  | Gt => 1
  end.

(** The pure virtual members a provider implements, on the provider's
    state [P]; only [setLevel(const int)] is used here. *)
Class Provider (P : Type) := {
  setLevel : Z -> P -> bool * P
}.

(** The [if]/[else if] chain of [setLevel(const std::string&)]. *)
Definition intLevel (level : string) : Z :=
  let intLevel := LL_ALL in (* all is default *)
  if (0 =? compare level Literals.traceTag)%Z then LL_TRACE
  else if (0 =? compare level Literals.debugTag)%Z then LL_DEBUG
  else if (0 =? compare level Literals.infoTag)%Z then LL_INFO
  else if (0 =? compare level Literals.warnTag)%Z then LL_WARN
  else if (0 =? compare level Literals.errorTag)%Z then LL_ERROR
  else if (0 =? compare level Literals.fatalTag)%Z then LL_FATAL
  else if (0 =? compare level Literals.offTag)%Z then LL_OFF
  else intLevel.

(** [bool ILogProvider::setLevel(const std::string& level)]. *)
Definition setLevel_string {P} `{Provider P} (level : string) (p : P)
  : bool * P :=
  setLevel (intLevel level) p.

(** The words of the specification: the level names as one table from tag
    to level, searched by exact match, [LL_ALL] for a string that is not in
    it. *)
Definition level_table : list (string * Z) :=
  [("trace", LL_TRACE); ("debug", LL_DEBUG); ("info", LL_INFO);
   ("warn", LL_WARN); ("error", LL_ERROR); ("fatal", LL_FATAL);
   ("off", LL_OFF)].

Definition level_of_tag (level : string) : Z :=
  match find (fun entry => String.eqb level (fst entry)) level_table with
  | Some (_, l) => l
  | None => LL_ALL
  end.

(** A provider that only records the levels it is given. *)
#[export] Instance recording_provider : Provider (list Z) :=
  {| setLevel := fun level seen => (true, seen ++ [level]) |}.

(** A [std::wstring], by the values of its [wchar_t] elements. *)
Definition wstring := list Z.

(** The conversion of one [wchar_t] to [char] that the range constructor
    [std::string(w.begin(), w.end())] applies to each element: the value
    modulo 2^8. *)
Definition narrow_char (w : Z) : ascii := ascii_of_N (Z.to_N (w mod 256)).

(** [std::string ascii(w.begin(), w.end())], the first statement of every
    wide-string overload. *)
Fixpoint narrow (w : wstring) : string :=
  match w with
  | [] => EmptyString
  | c :: w' => String (narrow_char c) (narrow w')
  end.

(** [bool ILogProvider::setLevel(const std::wstring& level)]. *)
Definition setLevel_wstring {P} `{Provider P} (level : wstring) (p : P)
  : bool * P :=
  let asciiLevel := narrow level in
  setLevel_string asciiLevel p.

(** The wide string with the characters of a narrow one. *)
Fixpoint widen (s : string) : wstring :=
  match s with
  | EmptyString => []
  | String c s' => Z.of_N (N_of_ascii c) :: widen s'
  end.

End ILogProvider.

(* ===================================================================== *)
(** * Log4CppLoggerProvider.hpp *)
(* ===================================================================== *)

Module Log4CppLoggerProvider.
Import ILogProvider.

(** The members of [log4cpp::Priority::PriorityLevel] the provider names. *)
Inductive PriorityLevel := NOTSET | DEBUG | INFO | WARN | ERROR | FATAL.

(** The calls the provider makes into log4cpp, which is not part of the
    repository: the library is represented by the record of the calls
    made to it. *)
Inductive lib_call :=
| Configure (propertiesFile : string)   (* PropertyConfigurator::configure *)
| SetRootPriority (p : PriorityLevel)   (* Category::setRootPriority       *)
| Emit (p : PriorityLevel) (message : string) (* getRoot().debug(..) etc. *)
| Shutdown.                             (* Category::shutdown              *)

(** [propertiesFile_] and [started_] are the members; [lib] are the calls
    made into log4cpp so far and [cerr] the lines written to [std::cerr].
    [lock_] is held around each library call and released before the
    member function returns. *)
Record state := {
  propertiesFile_ : string;
  started_ : bool;
  lib : list lib_call;
  cerr : list string
}.

Definition with_cerr (line : string) (s : state) : state :=
  {| propertiesFile_ := propertiesFile_ s; started_ := started_ s;
     lib := lib s; cerr := cerr s ++ [line] |}.

Definition with_call (c : lib_call) (s : state) : state :=
  {| propertiesFile_ := propertiesFile_ s; started_ := started_ s;
     lib := lib s ++ [c]; cerr := cerr s |}.

Definition with_started (b : bool) (s : state) : state :=
  {| propertiesFile_ := propertiesFile_ s; started_ := b;
     lib := lib s; cerr := cerr s |}.

Section WithLibrary.

(** Whether a call into log4cpp, made after the calls [history], throws
    [log4cpp::ConfigureFailure], and with which [what()]. *)
Variable throws : list lib_call -> lib_call -> option string.

(** A library call inside [try { .. } catch (ConfigureFailure &e)]:
    the state after the call, or the message of the exception. *)
Definition try_call (c : lib_call) (s : state) : state + string :=
  match throws (lib s) c with
  | None => inl (with_call c s)
  | Some what => inr what
  end.

(** [explicit Log4CppLoggerProvider(const std::string &propertiesFile)]. *)
Definition construct (propertiesFile : string) (history : list lib_call)
  : state :=
  {| propertiesFile_ := propertiesFile; started_ := false;
     lib := history; cerr := [] |}.

(** The [switch (level)] of [setLevel]. *)
Definition log4cppPriority (level : Z) : PriorityLevel :=
  if (level =? LL_DEBUG)%Z then DEBUG
  else if (level =? LL_INFO)%Z then INFO
  else if (level =? LL_WARN)%Z then WARN
  else if (level =? LL_ERROR)%Z then ERROR
  else if (level =? LL_FATAL)%Z then FATAL
  else NOTSET.

(** [bool Log4CppLoggerProvider::setLevel(const int level)]. *)
Definition setLevel (level : Z) (s : state) : bool * state :=
  if negb (started_ s) then
    (false, with_cerr "Call start() first!" s)
  else
    let priority := log4cppPriority level in
    if negb (started_ s) then
      match try_call (SetRootPriority priority) s with
      | inl s' => (true, s')
      | inr what => (false, with_cerr ("Set priotity problem " ++ what) s)
      end
    else (true, s).

(** [bool Log4CppLoggerProvider::start()]. *)
Definition start (s : state) : bool * state :=
  if negb (started_ s) then
    match try_call (Configure (propertiesFile_ s)) s with
    | inl s' => let s'' := with_started true s' in (started_ s'', s'')
    | inr what => (false, with_cerr ("Configure problem " ++ what) s)
    end
  else (started_ s, s).

(** [void Log4CppLoggerProvider::shutdown()]. *)
Definition shutdown (s : state) : state :=
  if started_ s then
    match try_call Shutdown s with
    | inl s' => with_started false s'
    | inr what => with_started false (with_cerr ("Shutdown problem " ++ what) s)
    end
  else s.

(** The body shared by [debug], [info], [warn], [error] and [fatal]. *)
Definition emit (p : PriorityLevel) (message : string) (s : state)
  : bool * state :=
  if negb (started_ s) then
    (false, with_cerr "Call start() first!" s)
  else (true, with_call (Emit p message) s).

Definition debug := emit DEBUG.
Definition info := emit INFO.
Definition warn := emit WARN.
Definition error := emit ERROR.
Definition fatal := emit FATAL.
(** [log] and [trace] are [return debug(message)]. *)
Definition log := debug.
Definition trace := debug.

(** The class implements the interface. *)
Definition as_provider : Provider state := {| ILogProvider.setLevel := setLevel |}.

(** The calls a provider receives: through the interface, [start] from its
    owner, [shutdown] from its destructor or a derived class. *)
Inductive call :=
| CallStart
| CallShutdown
| CallSetLevel (level : Z)
| CallLog (message : string)
| CallTrace (message : string)
| CallDebug (message : string)
| CallInfo (message : string)
| CallWarn (message : string)
| CallError (message : string)
| CallFatal (message : string).

(** The value returned ([None] for [void]) and the state after the call. *)
Definition exec (c : call) (s : state) : option bool * state :=
  match c with
  | CallStart => let '(b, s') := start s in (Some b, s')
  | CallShutdown => (None, shutdown s)
  | CallSetLevel level => let '(b, s') := setLevel level s in (Some b, s')
  | CallLog m => let '(b, s') := log m s in (Some b, s')
  | CallTrace m => let '(b, s') := trace m s in (Some b, s')
  | CallDebug m => let '(b, s') := debug m s in (Some b, s')
  | CallInfo m => let '(b, s') := info m s in (Some b, s')
  | CallWarn m => let '(b, s') := warn m s in (Some b, s')
  | CallError m => let '(b, s') := error m s in (Some b, s')
  | CallFatal m => let '(b, s') := fatal m s in (Some b, s')
  end.

Fixpoint run (calls : list call) (s : state) : list (option bool) * state :=
  match calls with
  | [] => ([], s)
  | c :: calls' =>
      let '(r, s1) := exec c s in
      let '(rs, s2) := run calls' s1 in
      (r :: rs, s2)
  end.

(** For a message call, the library call it stands for. *)
Definition emitted (c : call) : list lib_call :=
  match c with
  | CallLog m | CallTrace m | CallDebug m => [Emit DEBUG m]
  | CallInfo m => [Emit INFO m]
  | CallWarn m => [Emit WARN m]
  | CallError m => [Emit ERROR m]
  | CallFatal m => [Emit FATAL m]
  | CallStart | CallShutdown | CallSetLevel _ => []
  end.

Definition is_message (c : call) : bool :=
  match c with
  | CallStart | CallShutdown | CallSetLevel _ => false
  | _ => true
  end.

End WithLibrary.

End Log4CppLoggerProvider.

(* ===================================================================== *)
(** * RapidJsonProvider.hpp *)
(* ===================================================================== *)

Module RapidJsonProvider.

(** ** The part of RapidJSON the provider uses *)

(** A [rapidjson::Value].  An object keeps its members in document order
    and may hold a name more than once; a number is kept as written. *)
#[warnings="-register-all"] Inductive Value :=
| kNull
| kBool (b : bool)
| kNumber (lexeme : string)
| kString (s : string)
| kArray (elements : list Value)
| kObject (members : list (string * Value)).

Definition IsObject (v : Value) : bool :=
  match v with kObject _ => true | _ => false end.

Definition IsString (v : Value) : bool :=
  match v with kString _ => true | _ => false end.

(** [std::string::c_str()] read as a C string: the characters before the
    first NUL. *)
Fixpoint c_str (s : string) : string :=
  match s with
  | EmptyString => EmptyString
  | String c s' =>
      if Ascii.eqb c zero then EmptyString else String c (c_str s')
  end.

(** [FindMember(name)]: the first member whose name equals [name]. *)
Fixpoint FindMember (name : string) (members : list (string * Value))
  : option Value :=
  match members with
  | [] => None
  | (n, v) :: members' =>
      if String.eqb n name then Some v else FindMember name members'
  end.

(** Calls into RapidJSON return, or stop in [RAPIDJSON_ASSERT]. *)
Inductive checked (A : Type) :=
| Done (a : A)
| AssertFails.
Arguments Done {A} a.
Arguments AssertFails {A}.

(** [v.HasMember(name)], with [RAPIDJSON_ASSERT(IsObject())]. *)
Definition HasMember (v : Value) (name : string) : checked bool :=
  match v with
  | kObject members =>
      Done (match FindMember name members with Some _ => true | None => false end)
  | _ => AssertFails
  end.

(** [v[name]], with [RAPIDJSON_ASSERT(IsObject())] and
    [RAPIDJSON_ASSERT(false)] for a missing member. *)
Definition subscript (v : Value) (name : string) : checked Value :=
  match v with
  | kObject members =>
      match FindMember name members with
      | Some m => Done m
      | None => AssertFails
      end
  | _ => AssertFails
  end.

(** ** The provider *)

(** [doc_] and [initialized_]; [doc_] is only read after construction. *)
Record state := {
  doc_ : Value;
  initialized_ : bool
}.

(** The calls on [loggerRef_] made by [getValue]. *)
Inductive logged :=
| LogWarn (message : string)
| LogDebug (message : string).

(** [struct KeyValuePair] of IPairWrittable.hpp. *)
Record KeyValuePair := { key : string; value : string }.

(** [bool getKeyValue(key, values)]: the status and [values] after the
    call. *)
Definition getKeyValue (key : string) (values : list KeyValuePair)
  (s : state) : bool * list KeyValuePair :=
  (false, values).

(** [bool setValue(const std::string &, const std::string &)]. *)
Definition setValue (key value : string) (s : state) : bool := false.

Definition is_empty (s : string) : bool :=
  match s with EmptyString => true | String _ _ => false end.

Definition is_slash (c : ascii) : bool := Ascii.eqb c "/"%char.

(** The loop [while (std::getline(strStream, keyLevel, '/'))] with its
    body: [unread] are the characters left in the stream, [keyLevel] the
    characters [getline] has extracted for the current line.  A '/' ends
    the line; at the end of the stream a line that has characters is
    delivered, and a [getline] that extracted nothing fails and ends the
    loop.  Each delivered line is pushed to [keyLevels] unless it is
    empty. *)
Fixpoint tokenize (unread : string) (keyLevel : string) : list string :=
  match unread with
  | EmptyString =>
      if is_empty keyLevel then [] else [keyLevel]
  | String c unread' =>
      if is_slash c
      then (if is_empty keyLevel then [] else [keyLevel])
             ++ tokenize unread' EmptyString
      else tokenize unread' (keyLevel ++ String c EmptyString)
  end.

(** [keyLevels] as [getValue] has it before the lookup. *)
Definition keyLevels (key : string) : list string :=
  let levels := tokenize key EmptyString in
  match levels with
  | [] => [key]
  | _ :: _ => levels
  end.

(** The [for] loop over [keyLevels[1..]]: [levels] are the levels still
    to visit; the result is [value], [parsedKey] and the logger calls
    when the loop is left. *)
Fixpoint descend (levels : list string) (value : Value) (parsedKey : string)
  : checked (Value * string * list logged) :=
  match levels with
  | [] => Done (value, parsedKey, [])
  | keyLevel :: levels' =>
      let parsedKey := (parsedKey ++ ("/" ++ keyLevel))%string in
      match HasMember value (c_str keyLevel) with
      | AssertFails => AssertFails
      | Done true =>
          match subscript value (c_str keyLevel) with
          | AssertFails => AssertFails
          | Done value' =>
              if IsString value'
              then Done (value', parsedKey, [])
              else descend levels' value' parsedKey
          end
      | Done false =>
          Done (value, parsedKey,
                [LogWarn ("No match for nested key: " ++ parsedKey)])
      end
  end.

(** What a call of [getValue] leaves: the status, [values], and the calls
    it made on the logger. *)
Record result := {
  ret : bool;
  values : list string;
  log : list logged
}.

Definition finish (values : list string) (log : list logged) : result :=
  {| ret := negb (match values with [] => true | _ :: _ => false end);
     values := values; log := log |}.

(** [bool getValue(const std::string &key, std::vector<std::string> &values)]. *)
Definition getValue (key : string) (values : list string) (s : state)
  : checked result :=
  let values := @nil string in (* values.clear() *)
  if initialized_ s && negb (is_empty key) then
    let keyLevels := keyLevels key in
    match keyLevels with
    | [] => AssertFails (* keyLevels[0] of an empty vector: not reached *)
    | level0 :: levels =>
        let parsedKey := level0 in
        match HasMember (doc_ s) (c_str parsedKey) with
        | AssertFails => AssertFails
        | Done false => Done (finish values [])
        | Done true =>
            match subscript (doc_ s) (c_str parsedKey) with
            | AssertFails => AssertFails
            | Done value =>
                match
                  (if IsObject value && (1 <? List.length keyLevels)%nat
                   then descend levels value parsedKey
                   else Done (value, parsedKey, []))
                with
                | AssertFails => AssertFails
                | Done (value, parsedKey, log) =>
                    match value with
                    | kString str =>
                        if (0 =? ILogProvider.compare parsedKey key)%Z
                        then
                          (* values.push_back(value.GetString()): the
                             [const char *] is read as a C string *)
                          let pushed := c_str str in
                          let values := values ++ [pushed] in
                          Done (finish values
                                  (log ++ [LogDebug ("Found " ++ parsedKey ++ "='"
                                                     ++ pushed ++ "'")]))
                        else Done (finish values log)
                    | _ => Done (finish values log)
                    end
                end
            end
        end
    end
  else Done (finish values []).

(** ** The words of the specification about keys *)

(** The non-empty '/'-separated segments of a key. *)
Definition segments (key : string) : list string :=
  tokenize key EmptyString.

(** The segments joined with single '/' characters. *)
Fixpoint join (levels : list string) : string :=
  match levels with
  | [] => EmptyString
  | [level] => level
  | level :: levels' => (level ++ "/" ++ join levels')%string
  end.

Definition rebuilt (key : string) : string := join (segments key).

(** The key starts with '/'. *)
Definition leading_slash (key : string) : bool :=
  match key with
  | String c _ => is_slash c
  | EmptyString => false
  end.

(** The key ends with '/'. *)
Fixpoint trailing_slash (key : string) : bool :=
  match key with
  | EmptyString => false
  | String c EmptyString => is_slash c
  | String _ key' => trailing_slash key'
  end.

(** The key has two '/' in a row. *)
Fixpoint double_slash (key : string) : bool :=
  match key with
  | String c ((String d _) as key') =>
      (is_slash c && is_slash d) || double_slash key'
  | _ => false
  end.

(** A document made of objects with strings at the leaves. *)
Fixpoint objects_and_strings (v : Value) : bool :=
  match v with
  | kString _ => true
  | kObject members =>
      forallb (fun m => objects_and_strings (snd m)) members
  | _ => false
  end.

(** The key is made of '/' characters only. *)
Fixpoint only_slashes (key : string) : bool :=
  match key with
  | EmptyString => true
  | String c key' => is_slash c && only_slashes key'
  end.

(** The string has no '/'. *)
Fixpoint slash_free (s : string) : bool :=
  match s with
  | EmptyString => true
  | String c s' => negb (is_slash c) && slash_free s'
  end.

(** A key level: a non-empty string without '/'. *)
Definition is_level (s : string) : bool := negb (is_empty s) && slash_free s.

(** [parsedKey] after [levels] have been appended to it, each behind a
    '/', as the loop of [getValue] does. *)
Fixpoint join_from (parsedKey : string) (levels : list string) : string :=
  match levels with
  | [] => parsedKey
  | keyLevel :: levels' =>
      join_from (parsedKey ++ ("/" ++ keyLevel))%string levels'
  end.

(** What the tokenizer pushes to [keyLevels] when a line ends. *)
Definition delivered (keyLevel : string) : list string :=
  if is_empty keyLevel then [] else [keyLevel].

(** A document with a nested string, as in the example of [getValue]'s
    documentation. *)
Definition sample : state :=
  {| doc_ := kObject [("message_bus",
                       kObject [("subscribe_topic", kString "events")]);
                      ("name", kString "tiny")];
     initialized_ := true |}.

(** The value a list of levels leads to, going down through objects by
    member name, each name read as the C string the lookup is given. *)
Fixpoint resolve (levels : list string) (v : Value) : option Value :=
  match levels with
  | [] => Some v
  | keyLevel :: levels' =>
      match v with
      | kObject members =>
          match FindMember (c_str keyLevel) members with
          | Some member => resolve levels' member
          | None => None
          end
      | _ => None
      end
  end.

Section WithParser.

(** [doc_.Parse<0>(text)] of RapidJSON: the document, or [None] when
    [HasParseError()]. *)
Variable Parse : string -> option Value.

(** [RapidJsonProvider(logger, jsonSerializedText)]: the provider, and the
    message given to [loggerRef_.error] if any.  After a parse error
    [doc_] is the null value it was constructed as. *)
Definition construct (jsonSerializedText : string) : state * option string :=
  match Parse (c_str jsonSerializedText) with
  | Some doc => ({| doc_ := doc; initialized_ := true |}, None)
  | None =>
      ({| doc_ := kNull; initialized_ := false |},
       Some ("Failed to parse input JSON text: " ++ jsonSerializedText)%string)
  end.

End WithParser.

End RapidJsonProvider.

(* ===================================================================== *)
(** * HiRedisProvider.hpp *)
(* ===================================================================== *)

Module HiRedisProvider.

(** [Util::getAsKeyValuePair] and [Util::getAsValue]. *)
Definition getAsKeyValuePair (key value : string)
  : RapidJsonProvider.KeyValuePair :=
  {| RapidJsonProvider.key := key; RapidJsonProvider.value := value |}.

Definition getAsValue (key value : string) : string := value.

(** ** The part of hiredis the provider uses *)

(** A [redisReply], by the two fields the provider reads: [str] (a C
    string or a null pointer) and the [element] array, [elements] long. *)
#[warnings="-register-all"] Inductive redisReply :=
| Reply (str : option string) (element : list redisReply).

(** The commands the provider formats; every ["%s"] argument is passed as
    [c_str()]. *)
Inductive command :=
| GET (key : string)
| SET (key value : string)
| KEYS (pattern : string).

(** The pointer [connContext_]: null, a live context, or a context that
    has been handed to [redisFree]. *)
Inductive redisContext :=
| nullptr
| connected
| freed.

(** What [redisConnectWithTimeout] returned to the constructor. *)
Inductive connect_result :=
| AllocationFailed                    (* a null pointer            *)
| ConnectionError (errstr : string)   (* a context with [err] set  *)
| Connected.

(** The calls on [loggerRef_]. *)
Inductive logged :=
| LogTrace (message : string)
| LogError (message : string).

(** [connContext_], the commands sent over the context so far, and the
    calls made on the logger. *)
Record state := {
  connContext_ : redisContext;
  sent : list command;
  logger : list logged
}.

(** A member function returns a value and a state, or the program has left
    defined behaviour: a context used after [redisFree], or a member read
    through a null pointer. *)
Inductive outcome (A : Type) :=
| Returns (a : A) (s : state)
| UseAfterFree
| NullDereference.
Arguments Returns {A} a s.
Arguments UseAfterFree {A}.
Arguments NullDereference {A}.

Definition bind {A B} (o : outcome A) (k : A -> state -> outcome B)
  : outcome B :=
  match o with
  | Returns a s => k a s
  | UseAfterFree => UseAfterFree
  | NullDereference => NullDereference
  end.

Definition with_log (l : logged) (s : state) : state :=
  {| connContext_ := connContext_ s; sent := sent s;
     logger := logger s ++ [l] |}.

(** [std::string(p)] for a [char *] that is not null: the C string. *)
Definition from_c_str (p : string) : string := RapidJsonProvider.c_str p.

(** [p ? p : std::string()] for a reply's [str]. *)
Definition str_or_empty (str : option string) : string :=
  match str with
  | Some p => from_c_str p
  | None => EmptyString
  end.

(** [std::to_string] of a [size_t]. *)
Definition to_string (n : nat) : string :=
  NilZero.string_of_uint (Nat.to_uint n).

(** [key.back()] is ['*']. *)
Fixpoint back_is_star (key : string) : bool :=
  match key with
  | EmptyString => false
  | String c EmptyString => Ascii.eqb c "*"%char
  | String _ key' => back_is_star key'
  end.

Section WithServer.

(** The reply [redisCommand] returns to a command, given the commands sent
    before it; [None] is the null pointer it returns on an error. *)
Variable reply_to : list command -> command -> option redisReply.

(** [redisCommand(connContext_, ...)]. *)
Definition redisCommand (c : command) (s : state)
  : outcome (option redisReply) :=
  match connContext_ s with
  | connected =>
      Returns (reply_to (sent s) c)
              {| connContext_ := connContext_ s; sent := sent s ++ [c];
                 logger := logger s |}
  | freed => UseAfterFree
  | nullptr => NullDereference
  end.

(** [explicit HiRedisProvider(Util::ILogProvider &logger)]. *)
Definition construct (connection : connect_result) : state :=
  match connection with
  | AllocationFailed =>
      {| connContext_ := nullptr; sent := [];
         logger := [LogError
           "Failed to connect to redis server, can't allocate redis context!"] |}
  | ConnectionError errstr =>
      (* redisFree(connContext_): the pointer keeps its value *)
      {| connContext_ := freed; sent := [];
         logger := [LogError ("Failed to connect to redis server, error: "
                              ++ from_c_str errstr)] |}
  | Connected => {| connContext_ := connected; sent := []; logger := [] |}
  end.

(** [bool isConnected()]. *)
Definition isConnected (s : state) : bool :=
  match connContext_ s with
  | nullptr => false
  | _ => true
  end.

(** [~HiRedisProvider()]: [redisFree(connContext_)] when connected. *)
Definition destroy (s : state) : outcome unit :=
  if isConnected s then
    match connContext_ s with
    | freed => UseAfterFree
    | _ => Returns tt {| connContext_ := freed; sent := sent s;
                         logger := logger s |}
    end
  else Returns tt s.

(** [bool setValue(const std::string &key, const std::string &value)]. *)
Definition setValue (key value : string) (s : state) : outcome bool :=
  let status := false in
  if isConnected s then
    bind (redisCommand (SET (RapidJsonProvider.c_str key)
                            (RapidJsonProvider.c_str value)) s)
      (fun replyObj s1 =>
         match replyObj with
         | None => NullDereference
         | Some (Reply str _) =>
             Returns true
               (with_log (LogTrace ("Redis replied for SET " ++ key ++ " "
                                    ++ value ++ ": " ++ str_or_empty str)) s1)
         end)
  else
    Returns status
      (with_log (LogError "Redis is not connected! Cannot set any values!") s).

(** The protected [bool getValue(const std::string &key, std::string &value)]:
    the status and [value] after the call. *)
Definition getValue_single (key value : string) (s : state)
  : outcome (bool * string) :=
  if isConnected s && negb (RapidJsonProvider.is_empty key) then
    bind (redisCommand (GET (RapidJsonProvider.c_str key)) s)
      (fun replyObj s1 =>
         match replyObj with
         | None => NullDereference
         | Some (Reply str _) =>
             let value := str_or_empty str in
             Returns (negb (RapidJsonProvider.is_empty value), value)
               (with_log (LogTrace ("Redis replied for GET " ++ key ++ ": "
                                    ++ value)) s1)
         end)
  else Returns (negb (RapidJsonProvider.is_empty value), value) s.

Section WithCallback.

Variable T : Type.
Variable callback : string -> string -> T.

(** The [for] loop over the elements of a [KEYS] reply. *)
Fixpoint process_elements (element : list redisReply) (values : list T)
  (s : state) : outcome (list T) :=
  match element with
  | [] => Returns values s
  | Reply str _ :: element' =>
      match str with
      | None => NullDereference (* std::string subkey(nullptr) *)
      | Some p =>
          let subkey := from_c_str p in
          bind (getValue_single subkey EmptyString s)
            (fun found s1 =>
               let '(status, value) := found in
               process_elements element'
                 (if status then values ++ [callback subkey value] else values)
                 s1)
      end
  end.

(** [getAndProcessValue<T>(key, values, callback)]: the status and [values]
    after the call. *)
Definition getAndProcessValue (key : string) (values : list T) (s : state)
  : outcome (bool * list T) :=
  let values := @nil T in (* values.clear() *)
  let result (values : list T) :=
    (negb (match values with [] => true | _ :: _ => false end), values) in
  if isConnected s && negb (RapidJsonProvider.is_empty key) then
    if negb (back_is_star key) then (* single key *)
      bind (getValue_single key EmptyString s)
        (fun found s1 =>
           let '(status, value) := found in
           Returns (result (if status then values ++ [callback key value]
                            else values)) s1)
    else (* asterisk: multiple keys *)
      bind (redisCommand (KEYS (RapidJsonProvider.c_str key)) s)
        (fun replyObj s1 =>
           match replyObj with
           | None => NullDereference
           | Some (Reply _ element) =>
               let s2 :=
                 with_log (LogTrace ("Redis replied for KEYS " ++ key
                                     ++ ": returns elements: "
                                     ++ to_string (List.length element))) s1 in
               bind (process_elements element values s2)
                 (fun values s3 => Returns (result values) s3)
           end)
  else Returns (result values) s.

End WithCallback.

(** [bool getKeyValue(key, values)]. *)
Definition getKeyValue (key : string)
  (values : list RapidJsonProvider.KeyValuePair) (s : state)
  : outcome (bool * list RapidJsonProvider.KeyValuePair) :=
  getAndProcessValue getAsKeyValuePair key values s.

(** [bool getValue(key, values)]. *)
Definition getValue (key : string) (values : list string) (s : state)
  : outcome (bool * list string) :=
  getAndProcessValue getAsValue key values s.

End WithServer.

(** The result of a call with its values mapped. *)
Definition map_values {A B} (f : A -> B) (o : outcome (bool * list A))
  : outcome (bool * list B) :=
  match o with
  | Returns (status, values) s => Returns (status, map f values) s
  | UseAfterFree => UseAfterFree
  | NullDereference => NullDereference
  end.

(** A small server for the examples: two keys match any pattern, one of
    them holds a value. *)
Definition two_keys (_ : list command) (c : command) : option redisReply :=
  match c with
  | KEYS _ => Some (Reply None [Reply (Some "printer/a") [];
                                Reply (Some "printer/b") []])
  | GET key => if String.eqb key "printer/a"
               then Some (Reply (Some "on") [])
               else Some (Reply None [])
  | SET _ _ => Some (Reply (Some "OK") [])
  end.

End HiRedisProvider.

(* ===================================================================== *)
(** * Properties of FifoMultiThreaded *)
(* ===================================================================== *)

Section FifoFacts.

Variable T : Type.
Implicit Types (q : Fifo.queue T) (calls : list (Fifo.call T)).

Lemma fifo_run_cons c calls q :
  Fifo.run (c :: calls) q =
  (fst (Fifo.exec c q) :: fst (Fifo.run calls (snd (Fifo.exec c q))),
   snd (Fifo.run calls (snd (Fifo.exec c q)))).
Proof.
  simpl. destruct (Fifo.exec c q) as [r q1]. cbn [fst snd].
  destruct (Fifo.run calls q1) as [rs q2]. reflexivity.
Qed.

(** The conservation law behind FIFO order, from any starting content:
    what was stored followed by what was pushed is what was popped
    followed by what is still stored. *)
Lemma fifo_conservation calls : forall q,
  q ++ Fifo.pushed calls =
  Fifo.popped (fst (Fifo.run calls q)) ++ snd (Fifo.run calls q).
Proof.
  induction calls as [|c calls IH]; intros q.
  - simpl. apply app_nil_r.
  - rewrite fifo_run_cons. cbn [fst snd].
    destruct c as [x | out].
    + cbn [Fifo.exec Fifo.push fst snd Fifo.popped Fifo.pushed].
      rewrite <- (IH (q ++ [x])), <- app_assoc. reflexivity.
    + destruct q as [|front rest];
        cbn [Fifo.exec Fifo.pop fst snd Fifo.popped Fifo.pushed].
      * apply IH.
      * simpl. f_equal. apply IH.
Qed.

(** Bookkeeping of lengths along a history. *)
Lemma fifo_counting calls : forall q,
  (length (snd (Fifo.run calls q)) + Fifo.pops_ok (fst (Fifo.run calls q))
   = length q + Fifo.pushes_ok (fst (Fifo.run calls q)))%nat
  /\ Fifo.pushes_ok (fst (Fifo.run calls q)) = length (Fifo.pushed calls).
Proof.
  induction calls as [|c calls IH]; intros q.
  - simpl. split; lia.
  - rewrite fifo_run_cons. cbn [fst snd].
    destruct c as [x | out].
    + cbn [Fifo.exec Fifo.push fst snd Fifo.pops_ok Fifo.pushes_ok Fifo.pushed].
      destruct (IH (q ++ [x])) as [H1 H2].
      rewrite length_app in H1. simpl in *. split; lia.
    + destruct q as [|front rest];
        cbn [Fifo.exec Fifo.pop fst snd Fifo.pops_ok Fifo.pushes_ok Fifo.pushed].
      * apply IH.
      * destruct (IH rest) as [H1 H2]. simpl. split; lia.
Qed.

(** C1. For every history of [push] and [pop] calls on one queue, the
    items of the successful pops, in the order of the pops, followed by
    the items still stored, are the items pushed, in push order: the
    popped items are a prefix of the pushed ones, none twice and none
    skipped. *)
Theorem fifo_pops_are_prefix_of_pushes calls :
  Fifo.pushed calls =
    Fifo.popped (fst (Fifo.run calls Fifo.construct))
    ++ snd (Fifo.run calls Fifo.construct)
  /\ Fifo.prefix_of (Fifo.popped (fst (Fifo.run calls Fifo.construct)))
                    (Fifo.pushed calls).
Proof.
  pose proof (fifo_conservation calls Fifo.construct) as H.
  unfold Fifo.construct in *. simpl in H.
  split; [exact H|]. eexists. exact H.
Qed.

(** C5. [pop] on an empty queue reports failure and changes neither the
    caller's output variable nor the queue; a freshly constructed queue
    has size 0 and is empty. *)
Theorem fifo_pop_empty_and_fresh (element : T) q :
  Fifo.empty q = true ->
  Fifo.pop element q = (false, element, q)
  /\ Fifo.size (@Fifo.construct T) = 0%Z
  /\ Fifo.empty (@Fifo.construct T) = true.
Proof.
  intros He. destruct q as [|x q]; [|discriminate].
  repeat split.
Qed.

(** C6. After any history on an initially empty queue, [size()] is the
    number of successful pushes minus the number of successful pops;
    the latter never exceeds the former, and every push succeeded. *)
Theorem fifo_size_is_pushes_minus_pops calls :
  let rets := fst (Fifo.run calls Fifo.construct) in
  let k := Fifo.pushes_ok rets in
  let j := Fifo.pops_ok rets in
  Fifo.size (snd (Fifo.run calls Fifo.construct)) = (Z.of_nat k - Z.of_nat j)%Z
  /\ (j <= k)%nat
  /\ k = length (Fifo.pushed calls)
  /\ (forall x q, fst (Fifo.push x q) = true).
Proof.
  intros rets k j. subst rets k j.
  destruct (fifo_counting calls Fifo.construct) as [H1 H2].
  unfold Fifo.size. unfold Fifo.construct in *. simpl in H1.
  split; [lia | split; [lia | split; [exact H2 | intros; reflexivity]]].
Qed.

End FifoFacts.

(** A history with two producers' items and pops in between. *)
Example fifo_history_example :
  Fifo.run [Fifo.Pop 0; Fifo.Push 1; Fifo.Push 2; Fifo.Pop 0; Fifo.Push 3;
            Fifo.Pop 0; Fifo.Pop 7; Fifo.Pop 7] Fifo.construct
  = ([Fifo.PopRet false 0; Fifo.PushRet true; Fifo.PushRet true;
      Fifo.PopRet true 1; Fifo.PushRet true; Fifo.PopRet true 2;
      Fifo.PopRet true 3; Fifo.PopRet false 7], []).
Proof. reflexivity. Qed.

Lemma fifo_pop_empty_and_fresh_witness :
  Fifo.empty (@nil nat) = true
  /\ Fifo.pop 5 (@nil nat) = (false, 5, @nil nat)
  /\ Fifo.size (@Fifo.construct nat) = 0%Z
  /\ Fifo.empty (@Fifo.construct nat) = true.
Proof.
  split; [reflexivity|].
  apply (@fifo_pop_empty_and_fresh nat 5 nil). reflexivity.
Defined.

(* ===================================================================== *)
(** * Properties of CallbackWithTimeout: the worker loop *)
(* ===================================================================== *)

Module WorkerFacts.
Import CallbackWithTimeout.

Lemma worker_set t loads :
  worker t (true :: loads) = Invoke :: sleeping t 0 loads.
Proof. reflexivity. Qed.

Lemma sleeping_step t step e loads :
  sleeping t step (e :: loads) =
  if e && (step <? maxSteps t)%Z
  then Sleep timeSliceMilliseconds :: sleeping t (step + 1) loads
  else worker t loads.
Proof. reflexivity. Qed.

(** While the flag stays set the sleep loop requests exactly the slices
    that are left, and the load after the last slice ends it. *)
Lemma sleeping_while_set t rest : forall k step,
  k = Z.to_nat (maxSteps t - step) ->
  sleeping t step (repeat true k ++ true :: rest) =
  repeat (Sleep timeSliceMilliseconds) k ++ worker t rest.
Proof.
  induction k as [|k IH]; intros step Hk.
  - cbn [repeat app]. rewrite sleeping_step.
    replace (step <? maxSteps t)%Z with false; [reflexivity|].
    symmetry. apply Z.ltb_ge. lia.
  - cbn [repeat app]. rewrite sleeping_step.
    replace (step <? maxSteps t)%Z with true by (symmetry; apply Z.ltb_lt; lia).
    cbn [andb]. f_equal. apply IH. lia.
Qed.

(** One full iteration of the worker loop under a flag that stays set. *)
Lemma worker_iteration_while_set t rest :
  let k := Z.to_nat (maxSteps t) in
  worker t (true :: repeat true k ++ true :: rest) =
  Invoke :: repeat (Sleep timeSliceMilliseconds) k ++ worker t rest.
Proof.
  intros k. rewrite worker_set. f_equal.
  apply sleeping_while_set. subst k. f_equal. lia.
Qed.

Lemma sleep_to_next_invoke_slices k tr :
  sleep_to_next_invoke (repeat (Sleep timeSliceMilliseconds) k ++ Invoke :: tr)
  = Some (timeSliceMilliseconds * Z.of_nat k)%Z.
Proof.
  induction k as [|k IH].
  - reflexivity.
  - cbn [repeat app sleep_to_next_invoke]. rewrite IH. cbn [option_map].
    f_equal. lia.
Qed.

(** Between two consecutive invocations, under a flag that stays set, the
    worker requests [25 * (timeoutMilliseconds / 25)] milliseconds of
    sleep: the interval rounded down to whole slices. *)
Lemma sleep_between_invocations_while_set t rest :
  (0 <= t)%Z ->
  sleep_between_first_two
    (worker t (true :: repeat true (Z.to_nat (maxSteps t)) ++ true :: true :: rest))
  = Some (timeSliceMilliseconds * (t / timeSliceMilliseconds))%Z.
Proof.
  intros Ht. rewrite worker_iteration_while_set, worker_set.
  cbn [sleep_between_first_two]. rewrite sleep_to_next_invoke_slices.
  unfold maxSteps. rewrite Z.quot_div_nonneg by (unfold timeSliceMilliseconds; lia).
  rewrite Z2Nat.id; [reflexivity|].
  apply Z.div_pos; unfold timeSliceMilliseconds; lia.
Qed.

Lemma sleeping_zero_interval e loads :
  sleeping 0 0 (e :: loads) = worker 0 loads.
Proof. rewrite sleeping_step. cbn. rewrite andb_false_r. reflexivity. Qed.

Lemma worker_zero_interval_two loads :
  worker 0 (true :: true :: loads) = Invoke :: worker 0 loads.
Proof. rewrite worker_set, sleeping_zero_interval. reflexivity. Qed.

(** With a zero interval the trace is a run of invocations. *)
Lemma worker_zero_interval_only_invokes : forall n loads,
  (length loads <= n)%nat ->
  worker 0 loads = repeat Invoke (invocations (worker 0 loads)).
Proof.
  induction n as [n IH] using lt_wf_ind. intros loads Hn.
  destruct loads as [|[|] [|e loads]]; try reflexivity.
  rewrite worker_set, sleeping_zero_interval.
  cbn [invocations repeat]. f_equal.
  apply (IH (length loads)); simpl in *; lia.
Qed.

Lemma worker_zero_interval_while_set : forall n,
  worker 0 (repeat true n) = repeat Invoke (Nat.div2 (S n))
  /\ worker 0 (repeat true (S n)) = repeat Invoke (Nat.div2 (S (S n))).
Proof.
  induction n as [|n [IH1 IH2]].
  - split; reflexivity.
  - split; [exact IH2|].
    change (repeat true (S (S n))) with (true :: true :: repeat true n).
    rewrite worker_zero_interval_two, IH1. reflexivity.
Qed.

(** C2 (the code at [timeoutMilliseconds = 10] and [30]).  With the flag
    set at every load and an interval of 10 ms the worker invokes the
    callback twice in a row and requests no sleep in between, although the
    interval is positive; with 30 ms it requests 25 ms. *)
Theorem worker_interval_below_slice_no_sleep :
  worker 10 [true; true; true] = [Invoke; Invoke]
  /\ sleep_between_first_two (worker 10 [true; true; true]) = Some 0%Z
  /\ (0 < 10)%Z
  /\ maxSteps 10 = 0%Z
  /\ worker 30 [true; true; true; true] = [Invoke; Sleep 25; Invoke]
  /\ sleep_between_first_two (worker 30 [true; true; true; true]) = Some 25%Z.
Proof. repeat split. Qed.

(** C4. With [timeoutMilliseconds = 0] the worker never sleeps: whatever
    the flag does, its trace consists of callback invocations only; the
    two-argument [start] is [start(0, ...)]; and when the flag stays set
    over [n] loads the callback has run [(n + 1) / 2] times, hence at
    least twice from the third load on. *)
Theorem worker_zero_interval_back_to_back :
  maxSteps 0 = 0%Z
  /\ (forall s, start_immediate s = start 0 s)
  /\ (forall loads,
        worker 0 loads = repeat Invoke (invocations (worker 0 loads))
        /\ slept (worker 0 loads) = 0%Z)
  /\ (forall n, worker 0 (repeat true n) = repeat Invoke (Nat.div2 (S n)))
  /\ (forall n, (2 <= invocations (worker 0 (repeat true (3 + n))))%nat).
Proof.
  split; [reflexivity|]. split; [reflexivity|].
  assert (Hslept : forall k, slept (repeat Invoke k) = 0%Z)
    by (induction k; simpl; auto).
  assert (Hinv : forall k, invocations (repeat Invoke k) = k)
    by (induction k; simpl; auto).
  split; [|split].
  - intros loads.
    pose proof (@worker_zero_interval_only_invokes (length loads) loads (le_n _)) as H.
    split; [exact H|]. rewrite H. apply Hslept.
  - intros n. apply worker_zero_interval_while_set.
  - intros n. destruct (worker_zero_interval_while_set (3 + n)) as [H _].
    rewrite H, Hinv. cbn [Nat.add Nat.div2].
    generalize (Nat.div2 n). intros m. lia.
Qed.

End WorkerFacts.

(* ===================================================================== *)
(** * Properties of CallbackWithTimeout: start, stop and the workers *)
(* ===================================================================== *)

Module ExecutorFacts.
Import CallbackWithTimeout.

Lemma inv_construct : inv construct.
Proof. split; try reflexivity. intros t H. discriminate H. Qed.

(** [stop] always returns, and leaves no worker behind. *)
Lemma stop_returns s :
  inv s ->
  exists s', stop s = Returns s'
    /\ inv s' /\ execute_ s' = false /\ thread_ s' = None /\ live s' = []
    /\ spawned s' = spawned s
    /\ log s' = log s ++ StoreExecute false :: map Join (owned s).
Proof.
  intros [Hl Hf Hr]. destruct s as [e th lv sp lg].
  unfold owned, joinable in *. cbn [live execute_ thread_ spawned] in *.
  destruct th as [t|]; subst lv.
  - unfold stop, store_execute, joinable, join. cbn.
    rewrite Nat.eqb_refl. cbn. eexists. split; [reflexivity|].
    cbn. rewrite <- app_assoc.
    repeat split; try reflexivity. intros u H; discriminate H.
  - unfold stop, store_execute, joinable. cbn. eexists. split; [reflexivity|].
    cbn. repeat split; try reflexivity. intros u H; discriminate H.
Qed.

(** [start] always returns; it runs the stop sequence first when the
    object is running, then stores the flag and creates one worker. *)
Lemma start_returns ms s :
  inv s ->
  exists s', start ms s = Returns s'
    /\ inv s' /\ execute_ s' = true
    /\ thread_ s' = Some (spawned s) /\ live s' = [spawned s]
    /\ spawned s' = S (spawned s)
    /\ log s' = log s ++ stop_first s
                      ++ [StoreExecute true; Spawn (spawned s) ms].
Proof.
  intros Hinv. unfold start, stop_first.
  destruct (execute_ s) eqn:He.
  - destruct (stop_returns Hinv) as (s1 & -> & _ & _ & Hth & Hlv & Hsp & Hlg).
    cbn [bind]. unfold assign_thread, store_execute.
    cbn [thread_ live spawned log execute_].
    rewrite Hth, Hlv, Hsp, Hlg. eexists. split; [reflexivity|].
    cbn [thread_ live spawned log execute_ app].
    repeat split; cbn; try reflexivity.
    + intros t [= <-]. lia.
    + rewrite <- !app_assoc. reflexivity.
  - destruct Hinv as [Hl Hf Hr]. rewrite He in Hf.
    unfold joinable, owned in *. cbn [bind].
    unfold assign_thread, store_execute. cbn [thread_ live spawned log execute_].
    destruct (thread_ s) as [t|]; [discriminate Hf|].
    rewrite Hl. eexists. split; [reflexivity|].
    cbn [thread_ live spawned log execute_ app].
    repeat split; cbn; try reflexivity.
    + intros t [= <-]. lia.
    + rewrite <- !app_assoc. reflexivity.
Qed.

Lemma exec_preserves_inv c s :
  inv s -> exists s', exec c s = Returns s' /\ inv s'.
Proof.
  intros Hinv. destruct c as [ms| | |]; cbn [exec].
  - destruct (start_returns ms Hinv) as (s' & H & Hi & _). eauto.
  - destruct (start_returns 0 Hinv) as (s' & H & Hi & _). eauto.
  - destruct (stop_returns Hinv) as (s' & H & Hi & _). eauto.
  - eauto.
Qed.

Lemma run_preserves_inv calls : forall s,
  inv s -> exists s', run calls s = Returns s' /\ inv s'.
Proof.
  induction calls as [|c calls IH]; intros s Hinv; cbn [run].
  - eauto.
  - destruct (exec_preserves_inv c Hinv) as (s1 & -> & Hi1). cbn [bind].
    apply IH, Hi1.
Qed.

Lemma inv_at_most_one_live s : inv s -> (length (live s) <= 1)%nat.
Proof.
  intros [Hl _ _]. rewrite Hl. unfold owned.
  destruct (thread_ s); simpl; lia.
Qed.

Lemma inv_next_worker_not_live s :
  inv s -> existsb (Nat.eqb (spawned s)) (live s) = false.
Proof.
  intros [Hl _ Hr]. rewrite Hl. unfold owned.
  destruct (thread_ s) as [t|]; [|reflexivity].
  cbn. rewrite orb_false_r. apply Nat.eqb_neq.
  specialize (Hr t eq_refl). lia.
Qed.

(** C3. Whatever calls the owner has made on a fresh executor, every one
    of them returned (no [std::terminate], no endless [join]) and at most
    one worker is alive, the one the handle owns.  A further [start]
    from there returns too: if the executor is running it first clears
    the flag and joins the current worker, then sets the flag and creates
    exactly one worker, a new one, which is the only worker alive
    afterwards. *)
Theorem start_keeps_a_single_worker calls :
  exists s,
    run calls construct = Returns s
    /\ (length (live s) <= 1)%nat
    /\ live s = owned s
    /\ isRunning s = execute_ s
    /\ forall ms, exists s',
         start ms s = Returns s'
         /\ log s' = log s
              ++ (if isRunning s
                  then StoreExecute false :: map Join (live s) else [])
              ++ [StoreExecute true; Spawn (spawned s) ms]
         /\ live s' = [spawned s]
         /\ existsb (Nat.eqb (spawned s)) (live s) = false
         /\ isRunning s' = true.
Proof.
  destruct (run_preserves_inv calls inv_construct) as (s & Hrun & Hinv).
  exists s. split; [exact Hrun|].
  split; [apply inv_at_most_one_live, Hinv|].
  split; [apply Hinv|].
  assert (Hrunning : isRunning s = execute_ s).
  { unfold isRunning. rewrite <- (inv_flag Hinv). apply andb_diag. }
  split; [exact Hrunning|].
  intros ms.
  destruct (start_returns ms Hinv) as (s' & Hs & Hi' & He' & Hth' & Hlv' & _ & Hlg').
  exists s'. split; [exact Hs|].
  split.
  { rewrite Hlg'. unfold stop_first. rewrite Hrunning, (inv_live Hinv).
    reflexivity. }
  split; [exact Hlv'|].
  split; [apply inv_next_worker_not_live, Hinv|].
  unfold isRunning, joinable. rewrite He', Hth'. reflexivity.
Qed.

(** A restart on a running executor, step by step. *)
Example restart_example :
  run [Start 100; IsRunning; Start 50; StartImmediate; Stop; Stop] construct
  = Returns {| execute_ := false; thread_ := None; live := []; spawned := 3;
               log := [StoreExecute true; Spawn 0 100;
                       StoreExecute false; Join 0;
                       StoreExecute true; Spawn 1 50;
                       StoreExecute false; Join 1;
                       StoreExecute true; Spawn 2 0;
                       StoreExecute false; Join 2;
                       StoreExecute false] |}.
Proof. reflexivity. Qed.

End ExecutorFacts.

(* ===================================================================== *)
(** * Properties of ILogProvider and Log4CppLoggerProvider *)
(* ===================================================================== *)

Module LogFacts.
Import ILogProvider.

Lemma ascii_compare_refl c : Ascii.compare c c = Eq.
Proof. unfold Ascii.compare. apply N.compare_refl. Qed.

Lemma string_compare_refl s : String.compare s s = Eq.
Proof.
  induction s as [|c s IH]; simpl.
  - reflexivity.
  - rewrite ascii_compare_refl. exact IH.
Qed.

(** [0 == a.compare(b)] is equality of the two strings. *)
Lemma compare_zero_eqb s t : (0 =? compare s t)%Z = String.eqb s t.
Proof.
  unfold compare. destruct (String.eqb_spec s t) as [->|Hne].
  - rewrite string_compare_refl. reflexivity.
  - destruct (String.compare s t) eqn:Hc; try reflexivity.
    exfalso. apply Hne, String.compare_eq_iff, Hc.
Qed.

Lemma intLevel_is_table_lookup level : intLevel level = level_of_tag level.
Proof.
  unfold intLevel, level_of_tag, level_table, Literals.traceTag,
    Literals.debugTag, Literals.infoTag, Literals.warnTag, Literals.errorTag,
    Literals.fatalTag, Literals.offTag.
  rewrite !compare_zero_eqb. cbn [find fst].
  repeat match goal with
         | |- context [String.eqb level ?t] => destruct (String.eqb level t)
         end; reflexivity.
Qed.

(** C7. [setLevel] on a string forwards to the numeric [setLevel] the
    level of the tag: each of the seven lowercase tags gives its
    [LogLevel], matched exactly (so an uppercase spelling is not a tag),
    and every other string gives [LL_ALL]. *)
Theorem setLevel_string_forwards_tag_level :
  (forall P (provider : Provider P) level (p : P),
      setLevel_string level p = setLevel (intLevel level) p)
  /\ (forall level, intLevel level = level_of_tag level)
  /\ (forall level,
        existsb (String.eqb level)
          ["trace"; "debug"; "info"; "warn"; "error"; "fatal"; "off"] = true
        \/ intLevel level = LL_ALL)
  /\ intLevel "trace" = 0x3F%Z /\ intLevel "debug" = 0x1F%Z
  /\ intLevel "info" = 0xF%Z /\ intLevel "warn" = 0x7%Z
  /\ intLevel "error" = 0x3%Z /\ intLevel "fatal" = 0x1%Z
  /\ intLevel "off" = 0x0%Z
  /\ intLevel "all" = LL_ALL /\ intLevel "TRACE" = LL_ALL
  /\ intLevel "" = LL_ALL /\ LL_ALL = 0x7F%Z
  /\ setLevel_string "warn" (@nil Z) = (true, [LL_WARN])
  /\ setLevel_string "Warn" (@nil Z) = (true, [LL_ALL]).
Proof.
  split; [reflexivity|]. split; [exact intLevel_is_table_lookup|].
  split.
  { intros level. rewrite intLevel_is_table_lookup.
    unfold level_of_tag, level_table. cbn [find fst existsb].
    repeat match goal with
           | |- context [String.eqb level ?t] => destruct (String.eqb level t)
           end; cbn [orb]; auto. }
  repeat split.
Qed.

Import Log4CppLoggerProvider.

(** C9. On a started provider [setLevel(int)] returns true for every level
    and changes nothing: no call reaches log4cpp (so none to
    [setRootPriority]), nothing is written, the members are as before,
    whatever the library would have answered.  A [start] that returns true
    leaves the provider started. *)
Theorem setLevel_on_started_is_noop
  (throws : list lib_call -> lib_call -> option string)
  (s : state) (level : Z) :
  started_ s = true ->
  Log4CppLoggerProvider.setLevel throws level s = (true, s)
  /\ lib (snd (Log4CppLoggerProvider.setLevel throws level s)) = lib s
  /\ (forall s0, fst (start throws s0) = true ->
                 started_ (snd (start throws s0)) = true).
Proof.
  intros Hs.
  assert (H : Log4CppLoggerProvider.setLevel throws level s = (true, s)).
  { unfold Log4CppLoggerProvider.setLevel. rewrite Hs. reflexivity. }
  split; [exact H|]. split; [rewrite H; reflexivity|].
  intros s0. unfold start.
  destruct (started_ s0) eqn:H0; cbn [negb].
  - cbn [fst snd]. intros _. exact H0.
  - destruct (try_call throws (Configure (propertiesFile_ s0)) s0);
      cbn [fst snd with_started started_]; intros Hf;
      [reflexivity | discriminate Hf].
Qed.

(** A library in which no call throws. *)
Lemma setLevel_on_started_is_noop_witness :
  let throws := fun (_ : list lib_call) (_ : lib_call) => @None string in
  let s := snd (start throws (construct "log.properties" [])) in
  started_ s = true
  /\ Log4CppLoggerProvider.setLevel throws LL_INFO s = (true, s)
  /\ lib (snd (Log4CppLoggerProvider.setLevel throws LL_INFO s)) = lib s
  /\ (forall s0, fst (start throws s0) = true ->
                 started_ (snd (start throws s0)) = true).
Proof.
  intros throws s. split; [reflexivity|].
  apply (@setLevel_on_started_is_noop throws s LL_INFO). reflexivity.
Defined.

(** Before [start], [setLevel] fails; after it, the library has seen the
    configuration only. *)
Example setLevel_around_start :
  let throws := fun (_ : list lib_call) (_ : lib_call) => @None string in
  let s0 := construct "log.properties" [] in
  let s1 := snd (start throws s0) in
  fst (Log4CppLoggerProvider.setLevel throws LL_WARN s0) = false
  /\ lib (snd (Log4CppLoggerProvider.setLevel throws LL_WARN s1))
     = [Configure "log.properties"].
Proof. split; reflexivity. Qed.

End LogFacts.

(* ===================================================================== *)
(** * Properties of RapidJsonProvider *)
(* ===================================================================== *)

Module JsonFacts.
Import RapidJsonProvider.

(** C8. [setValue] reports failure for every key and value, and
    [getKeyValue] reports "not found" for every key and leaves [values] as
    it was, whatever the document. *)
Theorem setValue_and_getKeyValue_unsupported :
  (forall key value s, setValue key value s = false)
  /\ (forall key values s, getKeyValue key values s = (false, values)).
Proof. split; reflexivity. Qed.

(** ** Strings *)

Lemma append_assoc (a b c : string) : ((a ++ b) ++ c = a ++ (b ++ c))%string.
Proof. induction a as [|x a IH]; simpl; [reflexivity | now rewrite IH]. Qed.

Lemma append_nil_r (a : string) : (a ++ "" = a)%string.
Proof. induction a as [|x a IH]; simpl; [reflexivity | now rewrite IH]. Qed.

Lemma is_empty_append a b :
  is_empty (a ++ b) = is_empty a && is_empty b.
Proof. destruct a; reflexivity. Qed.

Lemma slash_free_append a b :
  slash_free (a ++ b) = slash_free a && slash_free b.
Proof.
  induction a as [|x a IH]; simpl; [reflexivity|].
  rewrite IH. apply andb_assoc.
Qed.

(** ** The tokenizer *)

Lemma tokenize_end a : forall keyLevel,
  slash_free a = true ->
  tokenize a keyLevel = delivered (keyLevel ++ a).
Proof.
  induction a as [|c a IH]; intros keyLevel Ha; simpl in *.
  - rewrite append_nil_r. reflexivity.
  - apply andb_prop in Ha as [Hc Ha].
    apply negb_true_iff in Hc. rewrite Hc.
    rewrite (IH _ Ha), append_assoc. reflexivity.
Qed.

Lemma tokenize_slash a rest : forall keyLevel,
  slash_free a = true ->
  tokenize (a ++ String "/" rest) keyLevel =
  delivered (keyLevel ++ a) ++ tokenize rest "".
Proof.
  induction a as [|c a IH]; intros keyLevel Ha; simpl in *.
  - rewrite append_nil_r. reflexivity.
  - apply andb_prop in Ha as [Hc Ha].
    apply negb_true_iff in Hc. rewrite Hc.
    rewrite (IH _ Ha), append_assoc. reflexivity.
Qed.

(** Every level the tokenizer delivers is non-empty and free of '/'. *)
Lemma tokenize_levels unread : forall keyLevel,
  slash_free keyLevel = true ->
  Forall (fun l => is_level l = true) (tokenize unread keyLevel).
Proof.
  assert (Hd : forall l, slash_free l = true ->
                         Forall (fun l => is_level l = true) (delivered l)).
  { intros l Hl. unfold delivered. destruct (is_empty l) eqn:He.
    - constructor.
    - constructor; [|constructor]. unfold is_level. now rewrite He, Hl. }
  induction unread as [|c unread IH]; intros keyLevel Hk; simpl.
  - apply Hd, Hk.
  - destruct (is_slash c) eqn:Hc.
    + apply Forall_app. split; [apply Hd, Hk | apply IH; reflexivity].
    + apply IH. rewrite slash_free_append, Hk. simpl. now rewrite Hc.
Qed.

(** No level is delivered exactly when only '/' was read. *)
Lemma tokenize_nil unread : forall keyLevel,
  tokenize unread keyLevel = [] <->
  is_empty keyLevel = true /\ only_slashes unread = true.
Proof.
  induction unread as [|c unread IH]; intros keyLevel; simpl.
  - destruct (is_empty keyLevel); split; intros H; try tauto; try discriminate.
    destruct H; discriminate.
  - destruct (is_slash c) eqn:Hc; cbn [andb].
    + destruct (is_empty keyLevel); cbn [app].
      * rewrite (IH ""). simpl. tauto.
      * split; intros H; [discriminate | destruct H; discriminate].
    + rewrite IH, is_empty_append. simpl. rewrite andb_false_r.
      split; intros [H1 H2]; discriminate.
Qed.

Lemma join_cons_cons a b levels :
  join (a :: b :: levels) = (a ++ "/" ++ join (b :: levels))%string.
Proof. reflexivity. Qed.

(** Tokenizing a path built from levels gives the levels back. *)
Lemma tokenize_join levels :
  levels <> [] ->
  Forall (fun l => is_level l = true) levels ->
  tokenize (join levels) "" = levels.
Proof.
  induction levels as [|a levels IH]; intros Hne Hall; [contradiction|].
  inversion Hall as [|? ? Ha Hrest]; subst.
  unfold is_level in Ha. apply andb_prop in Ha as [Hnonempty Hfree].
  apply negb_true_iff in Hnonempty.
  destruct levels as [|b levels].
  - cbn [join]. rewrite (tokenize_end _ _ Hfree). cbn [String.append].
    unfold delivered. now rewrite Hnonempty.
  - rewrite join_cons_cons. cbn [String.append].
    rewrite (tokenize_slash _ _ _ Hfree). cbn [String.append].
    unfold delivered. rewrite Hnonempty. cbn [app]. f_equal.
    apply IH; [discriminate | exact Hrest].
Qed.

(** The path the loop builds is the join of the levels it has visited. *)
Lemma join_from_join levels : forall a,
  join_from a levels = join (a :: levels).
Proof.
  induction levels as [|k levels IH]; intros a; cbn [join_from].
  - reflexivity.
  - rewrite IH. destruct levels as [|k' levels].
    + reflexivity.
    + rewrite !join_cons_cons. cbn [String.append].
      rewrite append_assoc. reflexivity.
Qed.

(** ** The lookup *)

(** The loop leaves [parsedKey] extended by an initial part of the levels
    it was given. *)
Lemma descend_parsedKey levels : forall value parsedKey value' parsedKey' lg,
  descend levels value parsedKey = Done (value', parsedKey', lg) ->
  exists visited rest,
    levels = visited ++ rest /\ parsedKey' = join_from parsedKey visited.
Proof.
  induction levels as [|k levels IH]; intros v pk v' pk' lg H; cbn [descend] in H.
  - injection H as <- <- <-. exists [], []. split; reflexivity.
  - destruct (HasMember v (c_str k)) as [[|]|]; try discriminate H.
    + destruct (subscript v (c_str k)) as [w|]; try discriminate H.
      destruct (IsString w).
      * injection H as <- <- <-. exists [k], levels. split; reflexivity.
      * apply IH in H as (visited & rest & -> & ->).
        exists (k :: visited), rest. split; reflexivity.
    + injection H as <- <- <-. exists [k], levels. split; reflexivity.
Qed.

(** Every result is built by [finish]: the status is "[values] is not
    empty". *)
Ltac finished :=
  do 2 eexists; split;
  [reflexivity | first [left; reflexivity | right; eexists; reflexivity]].

Lemma getValue_finish key values0 s r :
  getValue key values0 s = Done r ->
  exists vs lg, r = finish vs lg /\ (vs = [] \/ exists str, vs = [str]).
Proof.
  unfold getValue. intros H.
  destruct (initialized_ s && negb (is_empty key));
    [|injection H as <-; finished].
  destruct (keyLevels key) as [|level0 levels] eqn:Hk; [discriminate H|].
  destruct (HasMember (doc_ s) (c_str level0)) as [[|]|];
    [|injection H as <-; finished|discriminate H].
  destruct (subscript (doc_ s) (c_str level0)) as [v|]; [|discriminate H].
  destruct (if IsObject v && (1 <? List.length (level0 :: levels))%nat
            then descend levels v level0 else Done (v, level0, []))
    as [[[v' pk] lg]|]; [|discriminate H].
  destruct v'; try (injection H as <-; finished).
  destruct (0 =? ILogProvider.compare pk key)%Z; injection H as <-; finished.
Qed.

(** A successful lookup found a string under a path equal to the key, and
    that path is the join of an initial part of [keyLevels]. *)
Lemma getValue_true key values0 s r :
  getValue key values0 s = Done r -> ret r = true ->
  List.length (values r) = 1%nat
  /\ exists level0 visited rest,
       keyLevels key = level0 :: visited ++ rest
       /\ join (level0 :: visited) = key.
Proof.
  unfold getValue. intros H Hret.
  destruct (initialized_ s && negb (is_empty key));
    [|injection H as <-; discriminate Hret].
  destruct (keyLevels key) as [|level0 levels] eqn:Hk; [discriminate H|].
  destruct (HasMember (doc_ s) (c_str level0)) as [[|]|];
    [|injection H as <-; discriminate Hret|discriminate H].
  destruct (subscript (doc_ s) (c_str level0)) as [v|]; [|discriminate H].
  assert (Hloop : forall v' pk lg,
    (if IsObject v && (1 <? List.length (level0 :: levels))%nat
     then descend levels v level0 else Done (v, level0, [])) = Done (v', pk, lg) ->
    exists visited rest, levels = visited ++ rest /\ pk = join_from level0 visited).
  { intros v' pk lg Hl.
    destruct (IsObject v && (1 <? List.length (level0 :: levels))%nat).
    - eapply descend_parsedKey, Hl.
    - injection Hl as <- <- <-. exists [], levels. split; reflexivity. }
  destruct (if IsObject v && (1 <? List.length (level0 :: levels))%nat
            then descend levels v level0 else Done (v, level0, []))
    as [[[v' pk] lg]|]; [|discriminate H].
  destruct (Hloop v' pk lg eq_refl) as (visited & rest & -> & ->).
  destruct v'; try (injection H as <-; discriminate Hret).
  rewrite LogFacts.compare_zero_eqb in H.
  destruct (String.eqb_spec (join_from level0 visited) key) as [Heq|Hne];
    injection H as <-; [|discriminate Hret].
  split; [reflexivity|].
  exists level0, visited, rest. split; [reflexivity|].
  rewrite <- join_from_join. exact Heq.
Qed.

(** When the key has levels, a successful lookup has visited all of them:
    the key is its levels joined by single '/'. *)
Lemma getValue_true_rebuilt key values0 s r :
  getValue key values0 s = Done r -> ret r = true ->
  only_slashes key = true \/ rebuilt key = key.
Proof.
  intros H Hret.
  destruct (getValue_true _ _ _ H Hret) as (_ & level0 & visited & rest & Hk & Hj).
  unfold keyLevels in Hk. fold (segments key) in Hk.
  destruct (segments key) as [|l ls] eqn:Hs.
  - left. apply (tokenize_nil key ""). exact Hs.
  - right. unfold rebuilt. rewrite Hs, Hk.
    assert (Hall : Forall (fun l => is_level l = true) ((level0 :: visited) ++ rest)).
    { cbn [app]. rewrite <- Hk, <- Hs. apply tokenize_levels. reflexivity. }
    apply Forall_app in Hall as [Hvis _].
    pose proof (tokenize_join (levels := level0 :: visited)
                  ltac:(discriminate) Hvis) as Hround.
    rewrite Hj in Hround. fold (segments key) in Hround.
    rewrite Hs, Hk in Hround. rewrite Hround. exact Hj.
Qed.

(** ** Keys with misplaced separators *)

Lemma is_level_parts a :
  is_level a = true -> is_empty a = false /\ slash_free a = true.
Proof.
  unfold is_level. intros H. apply andb_prop in H as [H1 H2].
  apply negb_true_iff in H1. split; assumption.
Qed.

Lemma leading_slash_append a b :
  is_empty a = false -> leading_slash (a ++ b) = leading_slash a.
Proof. destruct a; [discriminate | reflexivity]. Qed.

Lemma slash_free_leading a : slash_free a = true -> leading_slash a = false.
Proof.
  destruct a as [|c a]; simpl; [reflexivity|].
  intros H. apply andb_prop in H as [H _]. now apply negb_true_iff in H.
Qed.

Lemma trailing_slash_append a b :
  is_empty b = false -> trailing_slash (a ++ b) = trailing_slash b.
Proof.
  intros Hb. induction a as [|c a IH]; [reflexivity|].
  cbn [String.append trailing_slash].
  destruct (a ++ b)%string eqn:Hab; [|exact IH].
  exfalso. destruct a; simpl in Hab; [subst b|]; discriminate.
Qed.

Lemma slash_free_trailing a : slash_free a = true -> trailing_slash a = false.
Proof.
  induction a as [|c a IH]; [reflexivity|]. simpl. intros H.
  apply andb_prop in H as [Hc Ha]. apply negb_true_iff in Hc.
  destruct a; [exact Hc | exact (IH Ha)].
Qed.

Lemma double_slash_append_slash a x :
  is_empty a = false -> slash_free a = true -> leading_slash x = false ->
  double_slash (a ++ String "/" x) = double_slash x.
Proof.
  induction a as [|c a IH]; [discriminate|]. intros _ Ha Hx.
  simpl in Ha. apply andb_prop in Ha as [Hc Ha]. apply negb_true_iff in Hc.
  destruct a as [|c' a].
  - cbn [String.append double_slash]. rewrite Hc. cbn [andb orb].
    destruct x as [|d x]; [reflexivity|].
    simpl in Hx. rewrite Hx. reflexivity.
  - specialize (IH eq_refl Ha Hx). cbn [String.append] in *.
    remember (a ++ String "/" x)%string as tail.
    cbn [double_slash]. rewrite Hc. cbn [andb orb]. exact IH.
Qed.

Lemma slash_free_double a : slash_free a = true -> double_slash a = false.
Proof.
  induction a as [|c a IH]; [reflexivity|]. intros H.
  simpl in H. apply andb_prop in H as [Hc Ha]. apply negb_true_iff in Hc.
  destruct a as [|c' a]; [reflexivity|].
  change (double_slash (String c (String c' a)))
    with ((is_slash c && is_slash c') || double_slash (String c' a)).
  rewrite Hc. exact (IH Ha).
Qed.

(** A path joined from levels starts and ends with a level character and
    has no two '/' in a row. *)
Lemma join_well_separated levels :
  levels <> [] ->
  Forall (fun l => is_level l = true) levels ->
  is_empty (join levels) = false
  /\ leading_slash (join levels) = false
  /\ trailing_slash (join levels) = false
  /\ double_slash (join levels) = false.
Proof.
  induction levels as [|a levels IH]; intros Hne Hall; [contradiction|].
  inversion Hall as [|? ? Ha Hrest]; subst.
  apply is_level_parts in Ha as [Hnonempty Hfree].
  destruct levels as [|b levels].
  - cbn [join]. repeat split;
      auto using slash_free_leading, slash_free_trailing, slash_free_double.
  - destruct (IH ltac:(discriminate) Hrest) as (He & Hl & Ht & Hd).
    rewrite join_cons_cons. cbn [String.append].
    repeat split.
    + rewrite is_empty_append, Hnonempty. reflexivity.
    + rewrite leading_slash_append by exact Hnonempty.
      apply slash_free_leading, Hfree.
    + rewrite trailing_slash_append by reflexivity.
      cbn [trailing_slash]. destruct (join (b :: levels)); [discriminate He|].
      exact Ht.
    + rewrite double_slash_append_slash by assumption. exact Hd.
Qed.

Lemma rebuilt_well_separated key :
  only_slashes key = false -> rebuilt key = key ->
  leading_slash key || trailing_slash key || double_slash key = false.
Proof.
  intros Hs Hr. unfold rebuilt in Hr.
  assert (Hne : segments key <> []).
  { intros Hnil. apply (tokenize_nil key "") in Hnil as [_ Hnil]. congruence. }
  destruct (join_well_separated Hne (tokenize_levels key "" eq_refl))
    as (_ & Hl & Ht & Hd).
  rewrite Hr in Hl, Ht, Hd. rewrite Hl, Ht, Hd. reflexivity.
Qed.

(** ** Documents of objects and strings: the lookup always returns *)

Lemma FindMember_objects_and_strings name members v :
  forallb (fun m => objects_and_strings (snd m)) members = true ->
  FindMember name members = Some v ->
  objects_and_strings v = true.
Proof.
  induction members as [|[n w] members IH]; simpl; [discriminate|].
  intros H. apply andb_prop in H as [Hw Hrest].
  destruct (String.eqb n name); [intros [= <-]; exact Hw | apply IH, Hrest].
Qed.

Lemma descend_returns levels : forall value parsedKey,
  IsObject value = true -> objects_and_strings value = true ->
  exists r, descend levels value parsedKey = Done r.
Proof.
  induction levels as [|k levels IH]; intros v pk Hobj Hos; cbn [descend].
  - eauto.
  - destruct v as [| | | |?|members]; try discriminate Hobj.
    cbn [HasMember subscript].
    destruct (FindMember (c_str k) members) as [w|] eqn:Hf; [|eauto].
    pose proof (FindMember_objects_and_strings _ _ Hos Hf) as Hw.
    destruct w as [| | |str|?|ms]; try discriminate Hw; cbn [IsString].
    + eauto.
    + apply IH; [reflexivity | exact Hw].
Qed.

Lemma keyLevels_not_nil key : keyLevels key <> [].
Proof. unfold keyLevels. destruct (tokenize key ""); discriminate. Qed.

Lemma getValue_returns key values0 s :
  IsObject (doc_ s) = true -> objects_and_strings (doc_ s) = true ->
  exists r, getValue key values0 s = Done r.
Proof.
  intros Hobj Hos. unfold getValue.
  destruct (initialized_ s && negb (is_empty key)); [|eauto].
  pose proof (keyLevels_not_nil key) as Hk.
  destruct (keyLevels key) as [|level0 levels]; [contradiction|].
  destruct (doc_ s) as [| | | |?|members]; try discriminate Hobj.
  cbn [HasMember subscript].
  destruct (FindMember (c_str level0) members) as [v|] eqn:Hf; [|eauto].
  pose proof (FindMember_objects_and_strings _ _ Hos Hf) as Hv.
  destruct (IsObject v && (1 <? List.length (level0 :: levels))%nat) eqn:Hloop.
  - apply andb_prop in Hloop as [Hvo _].
    destruct (@descend_returns levels v level0 Hvo Hv) as ([[v' pk] lg] & ->).
    destruct v'; eauto.
    destruct (0 =? ILogProvider.compare pk key)%Z; eauto.
  - destruct v; eauto.
    destruct (0 =? ILogProvider.compare level0 key)%Z; eauto.
Qed.

(** ** The claim about keys *)

(** C10, as the code has it.  [getValue] can return true only when the key
    consists of '/' characters alone (it has no level, and is then looked
    up as it stands among the top-level members) or equals the path
    rebuilt by joining its non-empty '/'-separated segments with single
    '/'; on success [values] holds exactly one element.  So for a key that
    has a level and a leading '/', a trailing '/' or two '/' in a row,
    [getValue] never returns true: a call that returns gives false and
    leaves [values] empty, and on a document whose root is an object and
    which is made of objects and strings every call returns. *)
Theorem getValue_true_only_on_rebuilt_key key values0 s :
  (forall r, getValue key values0 s = Done r -> ret r = true ->
     List.length (values r) = 1%nat
     /\ (only_slashes key = true \/ rebuilt key = key))
  /\ (leading_slash key || trailing_slash key || double_slash key = true ->
      only_slashes key = false ->
      (forall r, getValue key values0 s = Done r ->
                 ret r = false /\ values r = [])
      /\ (IsObject (doc_ s) = true -> objects_and_strings (doc_ s) = true ->
          exists lg, getValue key values0 s
                     = Done {| ret := false; values := []; log := lg |})).
Proof.
  split.
  - intros r H Hret. split.
    + apply (getValue_true _ _ _ H Hret).
    + apply (getValue_true_rebuilt _ _ _ H Hret).
  - intros Hbad Hlevels.
    assert (Hfalse : forall r, getValue key values0 s = Done r ->
                               ret r = false /\ values r = []).
    { intros r H. destruct (ret r) eqn:Hret.
      - destruct (getValue_true_rebuilt _ _ _ H Hret) as [Ho | Hr];
          [congruence|].
        rewrite (rebuilt_well_separated Hlevels Hr) in Hbad.
        discriminate Hbad.
      - split; [reflexivity|].
        destruct (getValue_finish _ _ _ H) as (vs & lg & -> & [-> | [str ->]]);
          [reflexivity | discriminate Hret]. }
    split; [exact Hfalse|].
    intros Hobj Hos.
    destruct (getValue_returns key values0 s Hobj Hos) as [r H].
    destruct (Hfalse r H) as [Hret Hvals].
    exists (log r). rewrite H. destruct r; simpl in *. now subst.
Qed.

(** The key "/" names a top-level member of this document and is found,
    although its non-empty segments rebuild the empty path; likewise "//".
    And on a document whose root is not an object the call does not
    return at all. *)
Lemma getValue_slash_key_is_found :
  getValue "/" [] {| doc_ := kObject [("/", kString "v")]; initialized_ := true |}
  = Done {| ret := true; values := ["v"]; log := [LogDebug "Found /='v'"] |}
  /\ rebuilt "/" = "" /\ rebuilt "/" <> "/"
  /\ leading_slash "/" = true /\ trailing_slash "/" = true
  /\ getValue "//" [] {| doc_ := kObject [("//", kString "w")]; initialized_ := true |}
     = Done {| ret := true; values := ["w"]; log := [LogDebug "Found //='w'"] |}
  /\ double_slash "//" = true
  /\ getValue "/a" [] {| doc_ := kArray []; initialized_ := true |} = AssertFails
  /\ ~ (forall key values0 s r,
          getValue key values0 s = Done r -> ret r = true -> rebuilt key = key).
Proof.
  repeat split; try discriminate.
  intros H.
  specialize (H "/" []
    {| doc_ := kObject [("/", kString "v")]; initialized_ := true |}
    _ eq_refl eq_refl).
  discriminate H.
Qed.

(** A nested string is not found under a misspelling of its path. *)
Lemma getValue_true_only_on_rebuilt_key_witness :
  (leading_slash "/message_bus/subscribe_topic"
   || trailing_slash "/message_bus/subscribe_topic"
   || double_slash "/message_bus/subscribe_topic" = true)
  /\ only_slashes "/message_bus/subscribe_topic" = false
  /\ IsObject (doc_ sample) = true
  /\ objects_and_strings (doc_ sample) = true
  /\ exists lg, getValue "/message_bus/subscribe_topic" ["stale"] sample
                = Done {| ret := false; values := []; log := lg |}.
Proof.
  repeat (split; [reflexivity|]).
  apply (proj2 (getValue_true_only_on_rebuilt_key
                  "/message_bus/subscribe_topic" ["stale"] sample));
    reflexivity.
Defined.

Example getValue_sample :
  getValue "message_bus/subscribe_topic" ["stale"] sample
  = Done {| ret := true; values := ["events"];
            log := [LogDebug "Found message_bus/subscribe_topic='events'"] |}
  /\ getValue "message_bus/subscribe_topic/" [] sample
     = Done {| ret := false; values := []; log := [] |}
  /\ getValue "message_bus//subscribe_topic" [] sample
     = Done {| ret := false; values := []; log := [] |}
  /\ getValue "message_bus/publish_topic" [] sample
     = Done {| ret := false; values := [];
               log := [LogWarn "No match for nested key: message_bus/publish_topic"] |}
  /\ getValue "name" [] sample
     = Done {| ret := true; values := ["tiny"];
               log := [LogDebug "Found name='tiny'"] |}.
Proof. repeat split. Qed.

End JsonFacts.

(* ===================================================================== *)
(** * Further properties of FifoMultiThreaded *)
(* ===================================================================== *)

Section FifoMore.

Variable T : Type.
Implicit Types (q : Fifo.queue T) (calls : list (Fifo.call T)).

Lemma fifo_failed_pops (out : T) n :
  Fifo.run (repeat (Fifo.Pop out) n) (@nil T)
  = (repeat (Fifo.PopRet false out) n, []).
Proof.
  induction n as [|n IH]; [reflexivity|].
  cbn [repeat]. rewrite fifo_run_cons.
  cbn [Fifo.exec Fifo.pop fst snd]. rewrite IH. reflexivity.
Qed.

(** X1. Draining: popping as many times as the queue has items returns the
    stored items from the front to the back, every pop succeeding, and
    leaves the queue empty; each further pop fails and hands the caller's
    variable back untouched. *)
Theorem fifo_drain (out : T) q n :
  Fifo.run (repeat (Fifo.Pop out) (length q + n)) q
  = (map (Fifo.PopRet true) q ++ repeat (Fifo.PopRet false out) n, []).
Proof.
  induction q as [|x q IH].
  - apply fifo_failed_pops.
  - cbn [length Nat.add repeat]. rewrite fifo_run_cons.
    cbn [Fifo.exec Fifo.pop fst snd]. rewrite IH. reflexivity.
Qed.

(** X2. One step of each operation: [push] succeeds, lengthens the queue by
    one and leaves it non-empty; [pop] succeeds exactly when the queue is
    not empty and then shortens it by one; [empty()] is [size() == 0]; and
    a [pop] after a [push] returns the old front when there was one, the
    pushed item otherwise. *)
Theorem fifo_push_pop_steps (x out : T) q :
  Fifo.push x q = (true, q ++ [x])
  /\ Fifo.size (snd (Fifo.push x q)) = (Fifo.size q + 1)%Z
  /\ Fifo.empty (snd (Fifo.push x q)) = false
  /\ fst (fst (Fifo.pop out q)) = negb (Fifo.empty q)
  /\ Fifo.size (snd (Fifo.pop out q))
     = (Fifo.size q - (if Fifo.empty q then 0 else 1))%Z
  /\ Fifo.empty q = (Fifo.size q =? 0)%Z
  /\ Fifo.pop out (snd (Fifo.push x q))
     = match q with
       | [] => (true, x, [])
       | front :: rest => (true, front, rest ++ [x])
       end.
Proof.
  unfold Fifo.size, Fifo.push. cbn [snd].
  split; [reflexivity|]. split; [rewrite length_app; simpl; lia|].
  split; [destruct q; reflexivity|].
  destruct q as [|front rest]; cbn [Fifo.pop Fifo.empty fst snd length negb app].
  - repeat split.
  - repeat split; lia.
Qed.

Lemma filter_prefix_of (keep : T -> bool) (l1 l2 : list T) :
  Fifo.prefix_of l1 l2 -> Fifo.prefix_of (filter keep l1) (filter keep l2).
Proof.
  intros [rest ->]. exists (filter keep rest). apply filter_app.
Qed.

(** X3. Order per producer: for any class of items (those of one producer,
    say), the items of the class that were popped are, in pop order, a
    prefix of the items of the class that were pushed, in push order. *)
Theorem fifo_order_within_a_class (keep : T -> bool) calls :
  Fifo.prefix_of
    (filter keep (Fifo.popped (fst (Fifo.run calls Fifo.construct))))
    (filter keep (Fifo.pushed calls)).
Proof.
  apply filter_prefix_of.
  pose proof (fifo_conservation calls Fifo.construct) as H.
  unfold Fifo.construct in *. simpl in H. eexists. exact H.
Qed.

End FifoMore.

(* ===================================================================== *)
(** * Further properties of CallbackWithTimeout *)
(* ===================================================================== *)

Module ExecutorMore.
Import CallbackWithTimeout ExecutorFacts.

Lemma isRunning_inv s : inv s -> isRunning s = execute_ s.
Proof.
  intros Hinv. unfold isRunning. rewrite <- (inv_flag Hinv). apply andb_diag.
Qed.

Lemma run_running_after calls : forall s,
  inv s ->
  exists s', run calls s = Returns s' /\ inv s'
             /\ isRunning s' = running_after calls (isRunning s).
Proof.
  induction calls as [|c calls IH]; intros s Hinv; cbn [run running_after].
  - eauto.
  - destruct c as [ms| | |]; cbn [exec].
    + destruct (start_returns ms Hinv) as (s1 & -> & Hi & He & _).
      cbn [bind]. destruct (IH s1 Hi) as (s' & Hr & Hi' & Hrun).
      exists s'. rewrite Hrun, (isRunning_inv Hi), He. auto.
    + unfold start_immediate.
      destruct (start_returns 0 Hinv) as (s1 & -> & Hi & He & _).
      cbn [bind]. destruct (IH s1 Hi) as (s' & Hr & Hi' & Hrun).
      exists s'. rewrite Hrun, (isRunning_inv Hi), He. auto.
    + destruct (stop_returns Hinv) as (s1 & -> & Hi & He & _).
      cbn [bind]. destruct (IH s1 Hi) as (s' & Hr & Hi' & Hrun).
      exists s'. rewrite Hrun, (isRunning_inv Hi), He. auto.
    + cbn [bind]. apply IH, Hinv.
Qed.

(** X4. After any calls of the owner on a fresh executor, [isRunning()] is
    true exactly when the last [start] or [stop] among them was a [start];
    in particular it is false on a fresh executor. *)
Theorem isRunning_follows_last_call calls :
  exists s,
    run calls construct = Returns s
    /\ isRunning s = running_after calls false
    /\ isRunning construct = false.
Proof.
  destruct (run_running_after calls inv_construct) as (s & Hr & _ & Hrun).
  exists s. repeat split; assumption.
Qed.

(** X5. Destruction after any calls of the owner returns (the handle is
    never destroyed joinable, so there is no [std::terminate]) and leaves
    no worker behind. *)
Theorem destroy_leaves_no_worker calls :
  exists s s',
    run calls construct = Returns s
    /\ destroy s = Returns s'
    /\ live s' = [] /\ thread_ s' = None /\ execute_ s' = false
    /\ spawned s' = spawned s.
Proof.
  destruct (run_preserves_inv calls inv_construct) as (s & Hr & Hinv).
  exists s. unfold destroy. destruct (execute_ s) eqn:He.
  - destruct (stop_returns Hinv) as (s' & -> & _ & He' & Hth & Hlv & Hsp & _).
    exists s'. cbn [bind]. unfold joinable. rewrite Hth. auto 10.
  - exists s. cbn [bind]. pose proof (inv_flag Hinv) as Hf.
    rewrite He in Hf. rewrite <- Hf.
    unfold joinable in Hf. destruct (thread_ s) eqn:Hth; [discriminate Hf|].
    pose proof (inv_live Hinv) as Hl. unfold owned in Hl. rewrite Hth in Hl.
    auto 10.
Qed.

(** X6. [stop] after any calls of the owner returns with the executor idle
    and no worker alive; a second [stop] then only stores the flag again:
    it joins nothing and changes nothing else. *)
Theorem stop_is_idempotent calls :
  exists s s1 s2,
    run calls construct = Returns s
    /\ stop s = Returns s1
    /\ isRunning s1 = false /\ live s1 = [] /\ thread_ s1 = None
    /\ log s1 = log s ++ StoreExecute false :: map Join (live s)
    /\ stop s1 = Returns s2
    /\ s2 = store_execute false s1.
Proof.
  destruct (run_preserves_inv calls inv_construct) as (s & Hr & Hinv).
  destruct (stop_returns Hinv) as (s1 & Hs1 & Hi1 & He1 & Hth1 & Hlv1 & _ & Hlg1).
  exists s, s1, (store_execute false s1).
  rewrite (inv_live Hinv). repeat split; try assumption.
  - unfold isRunning. rewrite He1. reflexivity.
  - unfold stop, joinable. cbn [store_execute thread_]. rewrite Hth1. reflexivity.
Qed.

End ExecutorMore.

Module WorkerMore.
Import CallbackWithTimeout WorkerFacts.

Lemma worker_after_clear t rest : forall pre,
  worker t (pre ++ false :: false :: rest) = worker t pre
  /\ forall step,
       sleeping t step (pre ++ false :: false :: rest) = sleeping t step pre.
Proof.
  induction pre as [|b pre [IHw IHs]]; cbn [app].
  - split; [reflexivity|]. intros step. rewrite sleeping_step. reflexivity.
  - split.
    + destruct b; [|reflexivity]. rewrite !worker_set, IHs. reflexivity.
    + intros step. rewrite !sleeping_step, IHs, IHw. reflexivity.
Qed.

(** X7. Cancellation: once the flag has been cleared the worker starts
    nothing more.  Whatever it has loaded before, two loads of a cleared
    flag (one if it is between iterations) end the thread without a
    further callback invocation or sleep, whatever the interval. *)
Theorem worker_stops_when_flag_cleared t pre rest :
  worker t (pre ++ false :: false :: rest) = worker t pre
  /\ worker t (false :: rest) = [].
Proof.
  split; [apply worker_after_clear | reflexivity].
Qed.

(** X8. Between two consecutive invocations, under a flag that stays set,
    the worker sleeps the interval rounded down to a multiple of the 25 ms
    slice: never more than the interval, and less than one slice short of
    it. *)
Theorem worker_sleeps_interval_rounded_down t rest :
  (0 <= t)%Z ->
  sleep_between_first_two
    (worker t (true :: repeat true (Z.to_nat (maxSteps t))
                 ++ true :: true :: rest))
  = Some (t - t mod 25)%Z
  /\ (t - 25 < t - t mod 25 <= t)%Z.
Proof.
  intros Ht. rewrite (sleep_between_invocations_while_set rest Ht).
  unfold timeSliceMilliseconds.
  pose proof (Z.div_mod t 25 ltac:(lia)) as Hdm.
  pose proof (Z.mod_pos_bound t 25 ltac:(lia)) as Hb.
  split; [f_equal; lia | lia].
Qed.

Lemma worker_sleeps_interval_rounded_down_witness :
  (0 <= 60)%Z
  /\ sleep_between_first_two
       (worker 60 (true :: repeat true (Z.to_nat (maxSteps 60))
                     ++ true :: true :: []))
     = Some (60 - 60 mod 25)%Z
  /\ (60 - 25 < 60 - 60 mod 25 <= 60)%Z.
Proof.
  split; [lia|]. apply (@worker_sleeps_interval_rounded_down 60 []). lia.
Defined.

Lemma maxSteps_below_slice t : (t < 25)%Z -> (maxSteps t <= 0)%Z.
Proof.
  intros Ht. unfold maxSteps, timeSliceMilliseconds.
  destruct (Z.le_gt_cases 0 t) as [Hpos | Hneg].
  - rewrite Z.quot_small by lia. lia.
  - apply Z.quot_le_upper_bound; lia.
Qed.

Lemma worker_below_slice_only_invokes t :
  (t < 25)%Z ->
  forall n loads, (length loads <= n)%nat ->
  worker t loads = repeat Invoke (invocations (worker t loads)).
Proof.
  intros Ht. pose proof (maxSteps_below_slice Ht) as Hm.
  induction n as [n IH] using lt_wf_ind. intros loads Hn.
  destruct loads as [|[|] [|e loads]]; try reflexivity.
  rewrite worker_set, sleeping_step.
  replace (0 <? maxSteps t)%Z with false by (symmetry; apply Z.ltb_ge; lia).
  rewrite andb_false_r. cbn [invocations repeat]. f_equal.
  apply (IH (length loads)); simpl in *; lia.
Qed.

(** X9. An interval below one slice, negative ones included, is treated
    as zero: whatever the flag does the worker never sleeps, its trace is
    a run of callback invocations. *)
Theorem worker_never_sleeps_below_slice t loads :
  (t < 25)%Z ->
  slept (worker t loads) = 0%Z
  /\ worker t loads = repeat Invoke (invocations (worker t loads)).
Proof.
  intros Ht.
  pose proof (@worker_below_slice_only_invokes t Ht (length loads) loads (le_n _)) as H.
  split; [|exact H]. rewrite H.
  generalize (invocations (worker t loads)). intros k.
  induction k as [|k IHk]; simpl; auto.
Qed.

Lemma worker_never_sleeps_below_slice_witness :
  (-40 < 25)%Z
  /\ slept (worker (-40) [true; true; false; true; true]) = 0%Z
  /\ worker (-40) [true; true; false; true; true]
     = repeat Invoke (invocations (worker (-40) [true; true; false; true; true])).
Proof.
  split; [lia|].
  apply (@worker_never_sleeps_below_slice (-40) [true; true; false; true; true]).
  lia.
Defined.

Lemma slices_within_interval t :
  (timeSliceMilliseconds * Z.max 0 (maxSteps t) <= Z.max 0 t)%Z.
Proof.
  unfold maxSteps, timeSliceMilliseconds.
  destruct (Z.le_gt_cases 0 t) as [Hpos | Hneg].
  - rewrite Z.quot_div_nonneg by lia.
    pose proof (Z.div_mod t 25 ltac:(lia)) as Hdm.
    pose proof (Z.mod_pos_bound t 25 ltac:(lia)) as Hb.
    pose proof (Z.div_pos t 25 Hpos ltac:(lia)). lia.
  - assert (t ÷ 25 <= 0)%Z by (apply Z.quot_le_upper_bound; lia). lia.
Qed.

Lemma worker_sleep_bound t : forall loads,
  (slept (worker t loads)
   <= Z.max 0 t * Z.of_nat (invocations (worker t loads)))%Z
  /\ forall step, (0 <= step)%Z ->
       (slept (sleeping t step loads)
        <= timeSliceMilliseconds * Z.max 0 (maxSteps t - step)
           + Z.max 0 t * Z.of_nat (invocations (sleeping t step loads)))%Z.
Proof.
  pose proof (slices_within_interval t) as Hfit.
  assert (Hslice : (0 < timeSliceMilliseconds)%Z) by reflexivity.
  induction loads as [|b loads [IHw IHs]].
  - split; [cbn [worker slept invocations]; lia|].
    intros step Hstep. cbn [sleeping slept invocations]. nia.
  - split.
    + destruct b; [|cbn [worker slept invocations]; lia].
      rewrite worker_set. cbn [slept invocations].
      specialize (IHs 0%Z ltac:(lia)). rewrite Z.sub_0_r in IHs.
      rewrite Nat2Z.inj_succ, Z.mul_succ_r. lia.
    + intros step Hstep. rewrite sleeping_step.
      destruct (b && (step <? maxSteps t)%Z) eqn:Hc.
      * apply andb_prop in Hc as [_ Hlt]. apply Z.ltb_lt in Hlt.
        cbn [slept invocations].
        specialize (IHs (step + 1)%Z ltac:(lia)).
        replace (Z.max 0 (maxSteps t - step))
          with (Z.max 0 (maxSteps t - (step + 1)) + 1)%Z by lia.
        lia.
      * assert (0 <= timeSliceMilliseconds * Z.max 0 (maxSteps t - step))%Z
          by nia.
        lia.
Qed.

(** X10. Whatever the flag does, the worker never sleeps longer than the
    interval allows: the sleep requested over a whole trace is at most the
    interval (zero for a negative one) times the number of callback
    invocations. *)
Theorem worker_total_sleep_bounded t loads :
  (slept (worker t loads)
   <= Z.max 0 t * Z.of_nat (invocations (worker t loads)))%Z.
Proof. apply worker_sleep_bound. Qed.

End WorkerMore.

(* ===================================================================== *)
(** * Further properties of ILogProvider and Log4CppLoggerProvider *)
(* ===================================================================== *)

Module LogMore.
Import ILogProvider.

Lemma narrow_char_widen c : narrow_char (Z.of_N (N_of_ascii c)) = c.
Proof.
  unfold narrow_char.
  pose proof (N_ascii_bounded c) as Hb.
  rewrite Z.mod_small by lia.
  rewrite N2Z.id. apply ascii_N_embedding.
Qed.

Lemma narrow_widen s : narrow (widen s) = s.
Proof.
  induction s as [|c s IH]; cbn [widen narrow]; [reflexivity|].
  rewrite narrow_char_widen, IH. reflexivity.
Qed.

Lemma narrow_char_period w k : narrow_char (w + 256 * k) = narrow_char w.
Proof.
  unfold narrow_char. rewrite (Z.mul_comm 256 k), Z_mod_plus_full. reflexivity.
Qed.

(** X11. The wide-string [setLevel] sees only the low eight bits of each
    wide character: on the widening of a narrow string it behaves as the
    narrow [setLevel] on that string, and adding a multiple of 256 to the
    wide characters changes nothing. *)
Theorem setLevel_wstring_narrows :
  (forall s, narrow (widen s) = s)
  /\ (forall P (provider : Provider P) s (p : P),
        setLevel_wstring (widen s) p = setLevel_string s p)
  /\ (forall P (provider : Provider P) w k (p : P),
        setLevel_wstring (map (fun c => c + 256 * k)%Z w) p
        = setLevel_wstring w p).
Proof.
  split; [exact narrow_widen|]. split.
  - intros P provider s p. unfold setLevel_wstring. rewrite narrow_widen.
    reflexivity.
  - intros P provider w k p. unfold setLevel_wstring.
    replace (narrow (map (fun c => c + 256 * k)%Z w)) with (narrow w);
      [reflexivity|].
    induction w as [|c w IH]; cbn [map narrow]; [reflexivity|].
    rewrite narrow_char_period, <- IH. reflexivity.
Qed.

Import Log4CppLoggerProvider.

Section WithLibrary.

Variable throws : list lib_call -> lib_call -> option string.

Local Abbreviation setLevel := (Log4CppLoggerProvider.setLevel throws).
Local Abbreviation start := (Log4CppLoggerProvider.start throws).
Local Abbreviation shutdown := (Log4CppLoggerProvider.shutdown throws).
Local Abbreviation run := (Log4CppLoggerProvider.run throws).
Local Abbreviation exec := (Log4CppLoggerProvider.exec throws).

(** X12. In every state [setLevel(int)] returns whether the provider is
    started and makes no call into log4cpp: the root priority is never
    set.  On a provider that is not started it writes one line to
    [std::cerr]; the members are never changed. *)
Theorem setLevel_never_reaches_log4cpp (level : Z) (s : state) :
  fst (setLevel level s) = started_ s
  /\ lib (snd (setLevel level s)) = lib s
  /\ started_ (snd (setLevel level s)) = started_ s
  /\ propertiesFile_ (snd (setLevel level s)) = propertiesFile_ s
  /\ cerr (snd (setLevel level s))
     = cerr s ++ (if started_ s then [] else ["Call start() first!"]).
Proof.
  unfold Log4CppLoggerProvider.setLevel.
  destruct (started_ s) eqn:Hs; cbn [negb fst snd with_cerr lib started_
                                       propertiesFile_ cerr];
    rewrite ?app_nil_r; auto.
Qed.

Lemma exec_message_started c s :
  started_ s = true -> is_message c = true ->
  exec c s = (Some true,
              {| propertiesFile_ := propertiesFile_ s; started_ := true;
                 lib := lib s ++ emitted c; cerr := cerr s |}).
Proof.
  intros Hs Hm.
  destruct c; try discriminate Hm;
    unfold Log4CppLoggerProvider.exec, log, trace, debug, info, warn, error,
      fatal, emit, with_call;
    rewrite Hs; reflexivity.
Qed.

(** X13. On a started provider every message call returns true and hands
    exactly one message to log4cpp, in the order of the calls: [info],
    [warn], [error] and [fatal] at their own priority, [log], [trace] and
    [debug] all at priority DEBUG.  Nothing else changes. *)
Theorem messages_reach_log4cpp_in_order (calls : list call) : forall s,
  started_ s = true ->
  forallb is_message calls = true ->
  run calls s
  = (map (fun _ => Some true) calls,
     {| propertiesFile_ := propertiesFile_ s; started_ := true;
        lib := lib s ++ flat_map emitted calls; cerr := cerr s |}).
Proof.
  induction calls as [|c calls IH]; intros s Hs Hm.
  - cbn [Log4CppLoggerProvider.run map flat_map]. rewrite app_nil_r.
    destruct s; simpl in *; subst; reflexivity.
  - cbn [forallb] in Hm. apply andb_prop in Hm as [Hc Hm].
    cbn [Log4CppLoggerProvider.run]. rewrite exec_message_started by assumption.
    rewrite IH by (try assumption; reflexivity).
    cbn [map flat_map propertiesFile_ lib cerr]. rewrite app_assoc.
    reflexivity.
Qed.

Lemma exec_message_not_started c s :
  started_ s = false -> is_message c = true ->
  exec c s = (Some false, with_cerr "Call start() first!" s).
Proof.
  intros Hs Hm.
  destruct c; try discriminate Hm;
    unfold Log4CppLoggerProvider.exec, log, trace, debug, info, warn, error,
      fatal, emit;
    rewrite Hs; reflexivity.
Qed.

(** X14. On a provider that is not started every message call returns
    false and nothing reaches log4cpp; each call writes one line to
    [std::cerr]. *)
Theorem messages_refused_before_start (calls : list call) : forall s,
  started_ s = false ->
  forallb is_message calls = true ->
  run calls s
  = (map (fun _ => Some false) calls,
     {| propertiesFile_ := propertiesFile_ s; started_ := false;
        lib := lib s;
        cerr := cerr s ++ map (fun _ => "Call start() first!") calls |}).
Proof.
  induction calls as [|c calls IH]; intros s Hs Hm.
  - cbn [Log4CppLoggerProvider.run map]. rewrite app_nil_r.
    destruct s; simpl in *; subst; reflexivity.
  - cbn [forallb] in Hm. apply andb_prop in Hm as [Hc Hm].
    cbn [Log4CppLoggerProvider.run]. rewrite exec_message_not_started by assumption.
    rewrite IH by assumption.
    cbn [map with_cerr propertiesFile_ lib cerr]. rewrite <- app_assoc.
    reflexivity.
Qed.

(** X15. [start] returns the started flag it leaves.  It configures log4cpp
    only on a provider that is not started, once, with [propertiesFile_];
    when the configuration throws, the provider stays not started and
    log4cpp has seen no call; once [start] has returned true, a further
    [start] returns true and does nothing. *)
Theorem start_configures_once (s : state) :
  fst (start s) = started_ (snd (start s))
  /\ lib (snd (start s))
     = lib s ++ (if negb (started_ s) && fst (start s)
                 then [Configure (propertiesFile_ s)] else [])
  /\ propertiesFile_ (snd (start s)) = propertiesFile_ s
  /\ (fst (start s) = true -> start (snd (start s)) = (true, snd (start s))).
Proof.
  destruct (started_ s) eqn:Hs.
  - assert (H : start s = (true, s))
      by (unfold Log4CppLoggerProvider.start; rewrite Hs; reflexivity).
    rewrite H. cbn [fst snd negb andb]. rewrite app_nil_r.
    repeat split; auto.
  - destruct (throws (lib s) (Configure (propertiesFile_ s))) as [what|] eqn:Ht.
    + assert (H : start s = (false, with_cerr ("Configure problem " ++ what) s))
        by (unfold Log4CppLoggerProvider.start, try_call; rewrite Hs, Ht;
            reflexivity).
      rewrite H. cbn [fst snd negb andb with_cerr started_ lib propertiesFile_].
      rewrite app_nil_r. repeat split; auto. discriminate.
    + assert (H : start s
                  = (true, with_started true
                             (with_call (Configure (propertiesFile_ s)) s)))
        by (unfold Log4CppLoggerProvider.start, try_call; rewrite Hs, Ht;
            reflexivity).
      rewrite H.
      cbn [fst snd negb andb with_started with_call started_ lib propertiesFile_].
      repeat split; auto.
Qed.

(** What one call can do to the record of library calls. *)
Lemma exec_library_effect c s :
  propertiesFile_ (snd (exec c s)) = propertiesFile_ s
  /\ ((lib (snd (exec c s)) = lib s
       /\ (started_ (snd (exec c s)) = started_ s
           \/ started_ (snd (exec c s)) = false))
      \/ (started_ s = false
          /\ lib (snd (exec c s)) = lib s ++ [Configure (propertiesFile_ s)])
      \/ (started_ s = true
          /\ exists l, lib (snd (exec c s)) = lib s ++ [l])).
Proof.
  destruct c;
    unfold Log4CppLoggerProvider.exec, log, trace, debug, info, warn, error,
      fatal, emit, Log4CppLoggerProvider.start,
      Log4CppLoggerProvider.shutdown, Log4CppLoggerProvider.setLevel, try_call;
    destruct (started_ s) eqn:Hs; cbn [negb];
    try destruct (throws (lib s) _);
    cbn [fst snd with_started with_call with_cerr started_ lib propertiesFile_];
    split; try reflexivity; eauto 7.
Qed.

(** X16. Over any calls on a freshly constructed provider, the properties
    file stays the one given to the constructor, and log4cpp is configured
    before anything else: either it has seen no call and the provider is
    not started, or the first call it saw is [configure] with that file. *)
Theorem log4cpp_is_configured_first (file : string) (calls : list call) :
  let s := snd (run calls (construct file [])) in
  propertiesFile_ s = file
  /\ ((lib s = [] /\ started_ s = false)
      \/ exists rest, lib s = Configure file :: rest).
Proof.
  cbv zeta.
  assert (Hgen : forall calls s,
    propertiesFile_ s = file ->
    ((lib s = [] /\ started_ s = false)
     \/ exists rest, lib s = Configure file :: rest) ->
    propertiesFile_ (snd (run calls s)) = file
    /\ ((lib (snd (run calls s)) = [] /\ started_ (snd (run calls s)) = false)
        \/ exists rest, lib (snd (run calls s)) = Configure file :: rest)).
  { clear calls. induction calls as [|c calls IH]; intros s Hf Hl.
    - split; assumption.
    - cbn [Log4CppLoggerProvider.run].
      destruct (exec_library_effect c s) as [Hf' Heff].
      destruct (exec c s) as [r s1]. cbn [snd] in *.
      destruct (run calls s1) as [rs s2] eqn:Hrun. cbn [snd].
      specialize (IH s1). rewrite Hrun in IH. cbn [snd] in IH.
      apply IH; [congruence|].
      destruct Heff as [[Hsame Hst] | [[Hns Hcfg] | [Hst [l Hadd]]]].
      + rewrite Hsame. destruct Hl as [[Hnil Hoff] | Hcons]; [|right; exact Hcons].
        left. split; [exact Hnil|]. destruct Hst; congruence.
      + right. rewrite Hcfg, Hf.
        destruct Hl as [[Hnil _] | [rest Hrest]].
        * rewrite Hnil. exists []. reflexivity.
        * rewrite Hrest. eexists. reflexivity.
      + right. destruct Hl as [[_ Hoff] | [rest Hrest]]; [congruence|].
        rewrite Hadd, Hrest. eexists. reflexivity. }
  apply Hgen; [reflexivity | left; split; reflexivity].
Qed.

(** X17. [shutdown] always leaves the provider not started, whether or not
    log4cpp throws; it calls [Category::shutdown] only on a started
    provider; a second [shutdown] does nothing; and afterwards [setLevel]
    returns false. *)
Theorem shutdown_stops_the_provider (s : state) :
  started_ (shutdown s) = false
  /\ propertiesFile_ (shutdown s) = propertiesFile_ s
  /\ lib (shutdown s)
     = lib s ++ (if started_ s
                 then match throws (lib s) Shutdown with
                      | None => [Shutdown]
                      | Some _ => []
                      end
                 else [])
  /\ shutdown (shutdown s) = shutdown s
  /\ forall level, fst (setLevel level (shutdown s)) = false.
Proof.
  assert (Hoff : started_ (shutdown s) = false).
  { unfold Log4CppLoggerProvider.shutdown, try_call.
    destruct (started_ s) eqn:Hs; [|exact Hs].
    destruct (throws (lib s) Shutdown); reflexivity. }
  split; [exact Hoff|].
  split; [|split; [|split]].
  - unfold Log4CppLoggerProvider.shutdown, try_call.
    destruct (started_ s); [|reflexivity].
    destruct (throws (lib s) Shutdown); reflexivity.
  - unfold Log4CppLoggerProvider.shutdown, try_call.
    destruct (started_ s); [|symmetry; apply app_nil_r].
    destruct (throws (lib s) Shutdown); cbn; rewrite ?app_nil_r; reflexivity.
  - unfold Log4CppLoggerProvider.shutdown at 1. rewrite Hoff. reflexivity.
  - intros level. unfold Log4CppLoggerProvider.setLevel. rewrite Hoff.
    reflexivity.
Qed.

End WithLibrary.

Lemma messages_reach_log4cpp_in_order_witness :
  let throws := fun (_ : list lib_call) (_ : lib_call) => @None string in
  let s := snd (start throws (construct "log.properties" [])) in
  let calls := [CallTrace "a"; CallWarn "b"; CallLog "c"] in
  started_ s = true
  /\ forallb is_message calls = true
  /\ run throws calls s
     = (map (fun _ => Some true) calls,
        {| propertiesFile_ := propertiesFile_ s; started_ := true;
           lib := lib s ++ flat_map emitted calls; cerr := cerr s |}).
Proof.
  intros throws s calls. split; [reflexivity|]. split; [reflexivity|].
  apply (@messages_reach_log4cpp_in_order throws calls s); reflexivity.
Defined.

Lemma messages_refused_before_start_witness :
  let throws := fun (_ : list lib_call) (c : lib_call) =>
                  match c with Configure _ => Some "no file" | _ => None end in
  let s := snd (start throws (construct "log.properties" [])) in
  let calls := [CallInfo "a"; CallFatal "b"] in
  started_ s = false
  /\ forallb is_message calls = true
  /\ run throws calls s
     = (map (fun _ => Some false) calls,
        {| propertiesFile_ := propertiesFile_ s; started_ := false;
           lib := lib s;
           cerr := cerr s ++ map (fun _ => "Call start() first!") calls |}).
Proof.
  intros throws s calls. split; [reflexivity|]. split; [reflexivity|].
  apply (@messages_refused_before_start throws calls s); reflexivity.
Defined.

End LogMore.

(* ===================================================================== *)
(** * Further properties of RapidJsonProvider *)
(* ===================================================================== *)

Module JsonMore.
Import RapidJsonProvider JsonFacts.

(** X18. A provider whose text did not parse, and any provider asked for
    the empty key, answers false: [values] is emptied and the logger is
    not called.  In particular a provider constructed from a text that
    RapidJSON rejects answers false to every key and has logged the parse
    failure once. *)
Theorem getValue_uninitialized_or_empty_key
  (Parse : string -> option Value) (text key : string) (values0 : list string)
  (s : state) :
  (initialized_ s = false ->
   getValue key values0 s = Done {| ret := false; values := []; log := [] |})
  /\ getValue "" values0 s = Done {| ret := false; values := []; log := [] |}
  /\ (Parse (c_str text) = None ->
      getValue key values0 (fst (construct Parse text))
      = Done {| ret := false; values := []; log := [] |}
      /\ snd (construct Parse text)
         = Some ("Failed to parse input JSON text: " ++ text)%string).
Proof.
  split; [|split].
  - intros Hi. unfold getValue. rewrite Hi. reflexivity.
  - unfold getValue. cbn [is_empty negb]. rewrite andb_false_r. reflexivity.
  - intros Hp. unfold construct. rewrite Hp. split; reflexivity.
Qed.

(** X19. The tokenizer and the join are inverse on well-formed paths: the
    segments of a key are levels (non-empty, without '/'); joining levels
    and splitting again gives the levels back; and rebuilding a key
    normalises it (same segments, and rebuilding again changes nothing). *)
Theorem segments_and_join_round_trip :
  (forall key, Forall (fun l => is_level l = true) (segments key))
  /\ (forall levels, levels <> [] ->
        Forall (fun l => is_level l = true) levels ->
        segments (join levels) = levels)
  /\ (forall key, segments (rebuilt key) = segments key)
  /\ (forall key, rebuilt (rebuilt key) = rebuilt key).
Proof.
  assert (Hseg : forall key, segments (rebuilt key) = segments key).
  { intros key. unfold rebuilt.
    destruct (segments key) as [|l ls] eqn:Hs; [reflexivity|].
    rewrite <- Hs. apply tokenize_join.
    - rewrite Hs. discriminate.
    - apply tokenize_levels. reflexivity. }
  split; [intros key; apply tokenize_levels; reflexivity|].
  split; [intros levels; apply tokenize_join|].
  split; [exact Hseg|].
  intros key. unfold rebuilt at 1. rewrite Hseg. reflexivity.
Qed.

Lemma compare_self a : (0 =? ILogProvider.compare a a)%Z = true.
Proof. rewrite LogFacts.compare_zero_eqb. apply String.eqb_refl. Qed.

(** When the loop ends on a string, it has walked to that string. *)
Lemma descend_string levels : forall value parsedKey str parsedKey' lg,
  IsObject value = true ->
  descend levels value parsedKey = Done (kString str, parsedKey', lg) ->
  exists visited rest,
    levels = visited ++ rest
    /\ parsedKey' = join_from parsedKey visited
    /\ resolve visited value = Some (kString str)
    /\ lg = [].
Proof.
  induction levels as [|k levels IH]; intros v pk str pk' lg Hobj H.
  - cbn [descend] in H. injection H as -> _ _. discriminate Hobj.
  - destruct v as [| | | |?|members]; try discriminate Hobj.
    cbn [descend HasMember subscript] in H.
    destruct (FindMember (c_str k) members) as [w|] eqn:Hf;
      [|discriminate H].
    destruct w as [|b|n|str'|els|ms]; cbn [IsString] in H.
    1-3, 5: destruct levels; cbn [descend HasMember] in H; discriminate H.
    + injection H as <- <- <-. exists [k], levels.
      cbn [app join_from resolve]. rewrite Hf. auto.
    + apply IH in H as (visited & rest & -> & -> & Hres & ->); [|reflexivity].
      exists (k :: visited), rest. cbn [app join_from resolve]. rewrite Hf.
      auto.
Qed.

(** When the levels lead to a string, the loop walks to it. *)
Lemma descend_resolve levels : forall value parsedKey str,
  levels <> [] ->
  resolve levels value = Some (kString str) ->
  IsObject value = true
  /\ descend levels value parsedKey
     = Done (kString str, join_from parsedKey levels, []).
Proof.
  induction levels as [|k levels IH]; intros v pk str Hne Hres; [contradiction|].
  destruct v as [| | | |?|members]; try discriminate Hres.
  cbn [resolve] in Hres. split; [reflexivity|].
  cbn [descend HasMember subscript join_from].
  destruct (FindMember (c_str k) members) as [w|]; [|discriminate Hres].
  destruct levels as [|k' levels].
  - cbn [resolve] in Hres. injection Hres as ->. reflexivity.
  - destruct (IH w (pk ++ String "/" k)%string str ltac:(discriminate) Hres)
      as [Hw Hd].
    destruct w; try discriminate Hw. cbn [IsString]. exact Hd.
Qed.

Lemma segments_of_joined_prefix key level0 visited rest :
  segments key = level0 :: visited ++ rest ->
  join (level0 :: visited) = key ->
  rest = [].
Proof.
  intros Hs Hj.
  assert (Hall : Forall (fun l => is_level l = true) ((level0 :: visited) ++ rest)).
  { cbn [app]. rewrite <- Hs. apply tokenize_levels. reflexivity. }
  apply Forall_app in Hall as [Hvis _].
  pose proof (tokenize_join (levels := level0 :: visited)
                ltac:(discriminate) Hvis) as Hround.
  rewrite Hj in Hround. fold (segments key) in Hround.
  rewrite Hs in Hround. injection Hround as Hround.
  rewrite <- (app_nil_r visited) in Hround at 2.
  apply app_inv_head in Hround. exact Hround.
Qed.

Lemma only_slashes_segments key :
  only_slashes key = false ->
  exists level0 levels, segments key = level0 :: levels
                        /\ keyLevels key = level0 :: levels
                        /\ is_empty key = false.
Proof.
  intros Hs. unfold keyLevels. fold (segments key).
  destruct (segments key) as [|l ls] eqn:Hseg.
  - apply (tokenize_nil key "") in Hseg as [_ Hseg]. congruence.
  - exists l, ls. repeat split. destruct key; [discriminate Hs | reflexivity].
Qed.

(** X20. What [getValue] finds.  On an initialized provider and a key that
    has a level, [getValue] returns true with [values = [v]] exactly
    when the key is its own segments joined by single '/' and those
    segments lead, from the document root down through objects, to a
    string of the document whose characters before the first NUL are
    [v]. *)
Theorem getValue_finds_the_string_at_the_path key values0 s v :
  initialized_ s = true ->
  only_slashes key = false ->
  (exists lg, getValue key values0 s
              = Done {| ret := true; values := [v]; log := lg |})
  <-> (rebuilt key = key
       /\ exists str, resolve (segments key) (doc_ s) = Some (kString str)
                      /\ v = c_str str).
Proof.
  intros Hinit Hlevels.
  destruct (only_slashes_segments key Hlevels) as (l0 & ls & Hseg & Hkl & Hne).
  split.
  - intros [lg H].
    assert (Hreb : rebuilt key = key).
    { destruct (getValue_true_rebuilt _ _ _ H eq_refl); congruence. }
    split; [exact Hreb|].
    unfold getValue in H. rewrite Hinit, Hne, Hkl in H. cbn [andb negb] in H.
    destruct (doc_ s) as [| | | |?|members]; try discriminate H.
    cbn [HasMember subscript] in H. rewrite Hseg. cbn [resolve].
    destruct (FindMember (c_str l0) members) as [w|];
      [|discriminate H].
    destruct (IsObject w && (1 <? List.length (l0 :: ls))%nat) eqn:Hloop.
    + apply andb_prop in Hloop as [Hobj _].
      destruct (descend ls w l0) as [[[w' pk] lg']|] eqn:Hd; [|discriminate H].
      destruct w' as [| | |str'| |]; try discriminate H.
      rewrite LogFacts.compare_zero_eqb in H.
      destruct (String.eqb_spec pk key) as [Heq|]; [|discriminate H].
      cbn [finish app] in H. injection H as Hv _.
      destruct (descend_string _ _ _ Hobj Hd) as (visited & rest & -> & -> & Hres & _).
      rewrite join_from_join in Heq.
      rewrite (@segments_of_joined_prefix key l0 visited rest Hseg Heq), app_nil_r.
      exists str'. split; [exact Hres | symmetry; exact Hv].
    + destruct w as [| | |str'| |]; try discriminate H.
      rewrite LogFacts.compare_zero_eqb in H.
      destruct (String.eqb_spec l0 key) as [Heq|]; [|discriminate H].
      cbn [finish app] in H. injection H as Hv _.
      pose proof (@segments_of_joined_prefix key l0 [] ls Hseg Heq) as ->.
      exists str'. split; [reflexivity | symmetry; exact Hv].
  - intros [Hreb (str & Hres & ->)]. unfold rebuilt in Hreb.
    rewrite Hseg in Hreb, Hres.
    unfold getValue. rewrite Hinit, Hne, Hkl. cbn [andb negb].
    destruct (doc_ s) as [| | | |?|members]; try discriminate Hres.
    cbn [resolve] in Hres. cbn [HasMember subscript].
    destruct (FindMember (c_str l0) members) as [w|]; [|discriminate Hres].
    destruct ls as [|l1 ls].
    + cbn [resolve] in Hres. injection Hres as ->.
      cbn [join] in Hreb. subst l0.
      cbn [IsObject andb]. rewrite compare_self.
      eexists. reflexivity.
    + destruct (descend_resolve (levels := l1 :: ls) w l0
                  ltac:(discriminate) Hres) as [Hobj Hd].
      rewrite Hobj. cbn [List.length Nat.ltb Nat.leb andb]. rewrite Hd.
      rewrite join_from_join, Hreb, compare_self.
      eexists. reflexivity.
Qed.

Lemma getValue_finds_the_string_at_the_path_witness :
  initialized_ sample = true
  /\ only_slashes "message_bus/subscribe_topic" = false
  /\ ((exists lg, getValue "message_bus/subscribe_topic" [] sample
                  = Done {| ret := true; values := ["events"]; log := lg |})
      <-> (rebuilt "message_bus/subscribe_topic" = "message_bus/subscribe_topic"
           /\ exists str,
                resolve (segments "message_bus/subscribe_topic") (doc_ sample)
                = Some (kString str)
                /\ "events" = c_str str)).
Proof.
  split; [reflexivity|]. split; [reflexivity|].
  apply (@getValue_finds_the_string_at_the_path
           "message_bus/subscribe_topic" [] sample "events"); reflexivity.
Defined.

(** A string of the document with a NUL inside is delivered up to the
    NUL. *)
Example getValue_cuts_at_nul :
  getValue "a" []
    {| doc_ := kObject [("a", kString (String "x" (String zero "y")))];
       initialized_ := true |}
  = Done {| ret := true; values := ["x"]; log := [LogDebug "Found a='x'"] |}.
Proof. reflexivity. Qed.

(** X21. A key made of '/' characters only has no level and is looked up
    as it stands: on an initialized provider [getValue] returns true
    exactly when the document root has a member of that very name whose
    value is a string, and delivers that string up to its first NUL; on a
    root that is not an object the lookup stops in an assertion. *)
Theorem getValue_slash_only_key_is_a_member_name key values0 s :
  initialized_ s = true ->
  only_slashes key = true ->
  is_empty key = false ->
  getValue key values0 s
  = match doc_ s with
    | kObject members =>
        match FindMember (c_str key) members with
        | Some (kString str) =>
            Done {| ret := true; values := [c_str str];
                    log := [LogDebug ("Found " ++ key ++ "='" ++ c_str str
                                      ++ "'")] |}
        | _ => Done {| ret := false; values := []; log := [] |}
        end
    | _ => AssertFails
    end.
Proof.
  intros Hinit Hs Hne.
  assert (Hkl : keyLevels key = [key]).
  { unfold keyLevels.
    replace (tokenize key "") with (@nil string); [reflexivity|].
    symmetry. apply tokenize_nil. split; [reflexivity | exact Hs]. }
  unfold getValue. rewrite Hinit, Hne, Hkl. cbn [andb negb].
  destruct (doc_ s) as [| | | |?|members]; try reflexivity.
  cbn [HasMember subscript].
  destruct (FindMember (c_str key) members) as [v|]; [|reflexivity].
  cbn [List.length Nat.ltb Nat.leb]. rewrite andb_false_r.
  destruct v; try reflexivity.
  rewrite compare_self. reflexivity.
Qed.

Lemma getValue_slash_only_key_is_a_member_name_witness :
  let s := {| doc_ := kObject [("a", kString "x"); ("//", kString "w")];
              initialized_ := true |} in
  initialized_ s = true
  /\ only_slashes "//" = true
  /\ is_empty "//" = false
  /\ getValue "//" ["stale"] s
     = match doc_ s with
       | kObject members =>
           match FindMember (c_str "//") members with
           | Some (kString str) =>
               Done {| ret := true; values := [c_str str];
                       log := [LogDebug ("Found " ++ "//" ++ "='" ++ c_str str
                                         ++ "'")] |}
           | _ => Done {| ret := false; values := []; log := [] |}
           end
       | _ => AssertFails
       end.
Proof.
  intros s. repeat (split; [reflexivity|]).
  apply (@getValue_slash_only_key_is_a_member_name "//" ["stale"] s);
    reflexivity.
Defined.

(** X22. On a document whose root is an object and which holds only
    objects and strings, [getValue] returns for every key: no RapidJSON
    assertion is reached, and the status is "[values] is not empty", with
    at most one value. *)
Theorem getValue_returns_on_objects_and_strings key values0 s :
  IsObject (doc_ s) = true ->
  objects_and_strings (doc_ s) = true ->
  exists r, getValue key values0 s = Done r
            /\ ret r = negb (Nat.eqb (List.length (values r)) 0)
            /\ (List.length (values r) <= 1)%nat.
Proof.
  intros Hobj Hos.
  destruct (getValue_returns key values0 s Hobj Hos) as [r H].
  exists r. split; [exact H|].
  destruct (getValue_finish _ _ _ H) as (vs & lg & -> & [-> | [str ->]]);
    cbn; auto.
Qed.

Lemma getValue_returns_on_objects_and_strings_witness :
  IsObject (doc_ sample) = true
  /\ objects_and_strings (doc_ sample) = true
  /\ exists r, getValue "name/first/last" [] sample = Done r
               /\ ret r = negb (Nat.eqb (List.length (values r)) 0)
               /\ (List.length (values r) <= 1)%nat.
Proof.
  split; [reflexivity|]. split; [reflexivity|].
  apply (@getValue_returns_on_objects_and_strings "name/first/last" [] sample);
    reflexivity.
Defined.

End JsonMore.

(* ===================================================================== *)
(** * Properties of HiRedisProvider *)
(* ===================================================================== *)

Module RedisFacts.
Import HiRedisProvider.

Section WithServer.

Variable reply_to : list command -> command -> option redisReply.

Local Abbreviation getValue := (HiRedisProvider.getValue reply_to).
Local Abbreviation getKeyValue := (HiRedisProvider.getKeyValue reply_to).
Local Abbreviation setValue := (HiRedisProvider.setValue reply_to).
Local Abbreviation getValue_single := (HiRedisProvider.getValue_single reply_to).

(** X23. Without a context (the allocation failed at construction) nothing
    is sent: both lookups return false with [values] emptied, [setValue]
    returns false after one error message to the logger, and destruction
    frees nothing. *)
Theorem no_context_no_command key value values1 values2 s :
  connContext_ s = nullptr ->
  getValue key values1 s = Returns (false, []) s
  /\ getKeyValue key values2 s = Returns (false, []) s
  /\ setValue key value s
     = Returns false
         (with_log (LogError "Redis is not connected! Cannot set any values!") s)
  /\ destroy s = Returns tt s
  /\ connContext_ (construct AllocationFailed) = nullptr.
Proof.
  intros Hc.
  unfold HiRedisProvider.getValue, HiRedisProvider.getKeyValue,
    getAndProcessValue, HiRedisProvider.setValue, destroy, isConnected.
  rewrite Hc. cbn [andb]. repeat split.
Qed.

(** X24. A key that does not end in '*' costs one [GET]; it is found
    exactly when the reply holds a non-empty string, which is then the
    only value.  A key whose stored value is the empty string, like a key
    with a nil reply, is reported as not found. *)
Theorem single_key_found_iff_value_not_empty key values0 s str element :
  connContext_ s = connected ->
  RapidJsonProvider.is_empty key = false ->
  back_is_star key = false ->
  reply_to (sent s) (GET (RapidJsonProvider.c_str key))
    = Some (Reply str element) ->
  getValue key values0 s
  = Returns
      (negb (RapidJsonProvider.is_empty (str_or_empty str)),
       if RapidJsonProvider.is_empty (str_or_empty str) then []
       else [str_or_empty str])
      {| connContext_ := connected;
         sent := sent s ++ [GET (RapidJsonProvider.c_str key)];
         logger := logger s ++ [LogTrace ("Redis replied for GET " ++ key
                                          ++ ": " ++ str_or_empty str)] |}.
Proof.
  intros Hc Hk Hstar Hreply.
  unfold HiRedisProvider.getValue, getAndProcessValue,
    HiRedisProvider.getValue_single, redisCommand, isConnected.
  rewrite Hc, Hk, Hstar. cbn [andb negb bind]. rewrite Hreply.
  unfold with_log. cbn [connContext_ sent logger]. rewrite ?Hc.
  destruct (RapidJsonProvider.is_empty (str_or_empty str)); reflexivity.
Qed.

Section WithCallback.

Variable T : Type.
Variable callback : string -> string -> T.

Let of_pair (kv : RapidJsonProvider.KeyValuePair) : T :=
  callback (RapidJsonProvider.key kv) (RapidJsonProvider.value kv).

Lemma process_elements_map element : forall pairs s,
  process_elements reply_to callback element (map of_pair pairs) s
  = match process_elements reply_to getAsKeyValuePair element pairs s with
    | Returns values s' => Returns (map of_pair values) s'
    | UseAfterFree => UseAfterFree
    | NullDereference => NullDereference
    end.
Proof.
  induction element as [|[str sub] element IH]; intros pairs s.
  - reflexivity.
  - cbn [process_elements]. destruct str as [p|]; [|reflexivity].
    destruct (HiRedisProvider.getValue_single reply_to (from_c_str p) "" s)
      as [[status value] s1| |]; cbn [bind]; try reflexivity.
    destruct status; [|apply IH].
    rewrite <- IH. rewrite map_app. reflexivity.
Qed.

Lemma getAndProcessValue_map key values1 values2 s :
  getAndProcessValue reply_to callback key values1 s
  = map_values of_pair
      (getAndProcessValue reply_to getAsKeyValuePair key values2 s).
Proof.
  unfold getAndProcessValue.
  destruct (isConnected s && negb (RapidJsonProvider.is_empty key));
    [|reflexivity].
  destruct (negb (back_is_star key)).
  - destruct (HiRedisProvider.getValue_single reply_to key "" s)
      as [[status value] s1| |]; cbn [bind]; try reflexivity.
    destruct status; reflexivity.
  - destruct (redisCommand reply_to (KEYS (RapidJsonProvider.c_str key)) s)
      as [[[str element]|] s1| |]; cbn [bind]; try reflexivity.
    change (@nil T) with (map of_pair []).
    rewrite process_elements_map.
    destruct (process_elements reply_to getAsKeyValuePair element [] _)
      as [values s3| |]; cbn [bind map_values]; try reflexivity.
    destruct values; reflexivity.
Qed.

End WithCallback.

(** X25. The two public lookups agree: for every key and state, [getValue]
    behaves as [getKeyValue] with each pair reduced to its value: the same
    status, the same commands sent and messages logged, the values in the
    same order. *)
Theorem getValue_is_getKeyValue_values key values1 values2 s :
  getValue key values1 s
  = map_values RapidJsonProvider.value (getKeyValue key values2 s).
Proof.
  unfold HiRedisProvider.getValue, HiRedisProvider.getKeyValue.
  rewrite (getAndProcessValue_map getAsValue key values1 values2 s).
  reflexivity.
Qed.

Lemma getValue_single_effect key s status value s' :
  getValue_single key "" s = Returns (status, value) s' ->
  status = negb (RapidJsonProvider.is_empty value)
  /\ connContext_ s' = connContext_ s
  /\ exists more, sent s' = sent s ++ more.
Proof.
  unfold HiRedisProvider.getValue_single, redisCommand.
  destruct (isConnected s && negb (RapidJsonProvider.is_empty key)).
  - destruct (connContext_ s) eqn:Hc; cbn [bind]; try discriminate.
    destruct (reply_to (sent s) (GET (RapidJsonProvider.c_str key)))
      as [[str element]|]; [|discriminate].
    intros [= <- <- <-]. cbn [with_log connContext_ sent].
    repeat split; eauto.
  - intros [= <- <- <-]. repeat split. exists []. symmetry. apply app_nil_r.
Qed.

Lemma process_elements_effect element : forall pairs s values s',
  Forall (fun kv => RapidJsonProvider.is_empty (RapidJsonProvider.value kv)
                    = false) pairs ->
  process_elements reply_to getAsKeyValuePair element pairs s
    = Returns values s' ->
  Forall (fun kv => RapidJsonProvider.is_empty (RapidJsonProvider.value kv)
                    = false) values
  /\ connContext_ s' = connContext_ s
  /\ exists more, sent s' = sent s ++ more.
Proof.
  induction element as [|[str sub] element IH]; intros pairs s values s' Hp H.
  - injection H as <- <-. repeat split; [exact Hp|].
    exists []. symmetry. apply app_nil_r.
  - cbn [process_elements] in H. destruct str as [p|]; [|discriminate H].
    destruct (HiRedisProvider.getValue_single reply_to (from_c_str p) "" s)
      as [[status value] s1| |] eqn:Hg; cbn [bind] in H; try discriminate H.
    destruct (getValue_single_effect _ _ Hg) as (Hst & Hc1 & more1 & Hs1).
    apply IH in H as (Hv & Hc & more & Hs).
    + repeat split; [exact Hv | congruence|].
      exists (more1 ++ more). rewrite Hs, Hs1, app_assoc. reflexivity.
    + destruct status; [|exact Hp].
      apply Forall_app. split; [exact Hp|].
      constructor; [|constructor].
      cbn. symmetry in Hst. apply negb_true_iff in Hst. exact Hst.
Qed.

(** X26. Whatever the server answers, a lookup that returns reports
    "found" exactly when it delivers at least one pair, every delivered
    pair has a non-empty value (keys whose value is empty or absent are
    dropped from a wildcard result), the context is kept, and commands are
    only added to those already sent. *)
Theorem delivered_pairs_have_values key values0 s status pairs s' :
  getKeyValue key values0 s = Returns (status, pairs) s' ->
  status = negb (Nat.eqb (List.length pairs) 0)
  /\ Forall (fun kv => RapidJsonProvider.is_empty (RapidJsonProvider.value kv)
                       = false) pairs
  /\ connContext_ s' = connContext_ s
  /\ exists more, sent s' = sent s ++ more.
Proof.
  unfold HiRedisProvider.getKeyValue, getAndProcessValue.
  destruct (isConnected s && negb (RapidJsonProvider.is_empty key)).
  - destruct (negb (back_is_star key)).
    + destruct (HiRedisProvider.getValue_single reply_to key "" s)
        as [[st value] s1| |] eqn:Hg; cbn [bind]; try discriminate.
      destruct (getValue_single_effect _ _ Hg) as (Hst & Hc1 & Hmore).
      destruct st; intros [= <- <- <-]; cbn [app List.length Nat.eqb negb];
        repeat split; auto.
      constructor; [|constructor].
      cbn. symmetry in Hst. apply negb_true_iff in Hst. exact Hst.
    + unfold redisCommand.
      destruct (connContext_ s) eqn:Hc; cbn [bind]; try discriminate.
      destruct (reply_to (sent s) (KEYS (RapidJsonProvider.c_str key)))
        as [[str element]|]; [|discriminate].
      destruct (process_elements reply_to getAsKeyValuePair element [] _)
        as [values s3| |] eqn:Hp; cbn [bind]; try discriminate.
      apply process_elements_effect in Hp as (Hv & Hc3 & more & Hs);
        [|constructor].
      cbn [with_log connContext_ sent] in Hc3, Hs.
      intros [= <- <- <-]. repeat split.
      * destruct values; reflexivity.
      * exact Hv.
      * congruence.
      * eexists. rewrite Hs, <- app_assoc. reflexivity.
  - intros [= <- <- <-]. repeat split; [constructor|].
    exists []. symmetry. apply app_nil_r.
Qed.

End WithServer.

Lemma no_context_no_command_witness :
  let s := construct AllocationFailed in
  connContext_ s = nullptr
  /\ getValue two_keys "printer/a" ["stale"] s = Returns (false, []) s
  /\ getKeyValue two_keys "printer/a" [] s = Returns (false, []) s
  /\ setValue two_keys "printer/a" "on" s
     = Returns false
         (with_log (LogError "Redis is not connected! Cannot set any values!") s)
  /\ destroy s = Returns tt s
  /\ connContext_ (construct AllocationFailed) = nullptr.
Proof.
  intros s. split; [reflexivity|].
  apply (@no_context_no_command two_keys "printer/a" "on" ["stale"] [] s).
  reflexivity.
Defined.

Lemma single_key_found_iff_value_not_empty_witness :
  let s := construct Connected in
  connContext_ s = connected
  /\ RapidJsonProvider.is_empty "printer/b" = false
  /\ back_is_star "printer/b" = false
  /\ two_keys (sent s) (GET (RapidJsonProvider.c_str "printer/b"))
     = Some (Reply None [])
  /\ getValue two_keys "printer/b" ["stale"] s
     = Returns
         (negb (RapidJsonProvider.is_empty (str_or_empty None)),
          if RapidJsonProvider.is_empty (str_or_empty None) then []
          else [str_or_empty None])
         {| connContext_ := connected;
            sent := sent s ++ [GET (RapidJsonProvider.c_str "printer/b")];
            logger := logger s ++ [LogTrace ("Redis replied for GET "
                                             ++ "printer/b" ++ ": "
                                             ++ str_or_empty None)] |}.
Proof.
  intros s. repeat (split; [reflexivity|]).
  apply (@single_key_found_iff_value_not_empty two_keys "printer/b" ["stale"]
           s None []); reflexivity.
Defined.

Lemma delivered_pairs_have_values_witness :
  let s := construct Connected in
  let pairs := [getAsKeyValuePair "printer/a" "on"] in
  let s' := {| connContext_ := connected;
               sent := [KEYS "printer/*"; GET "printer/a"; GET "printer/b"];
               logger := [LogTrace "Redis replied for KEYS printer/*: returns elements: 2";
                          LogTrace "Redis replied for GET printer/a: on";
                          LogTrace "Redis replied for GET printer/b: "] |} in
  getKeyValue two_keys "printer/*" [] s = Returns (true, pairs) s'
  /\ true = negb (Nat.eqb (List.length pairs) 0)
  /\ Forall (fun kv => RapidJsonProvider.is_empty (RapidJsonProvider.value kv)
                       = false) pairs
  /\ connContext_ s' = connContext_ s
  /\ exists more, sent s' = sent s ++ more.
Proof.
  intros s pairs s'. split; [reflexivity|].
  apply (@delivered_pairs_have_values two_keys "printer/*" [] s true pairs s').
  reflexivity.
Defined.

(** X27. A failed connection leaves a dangling context.  When
    [redisConnectWithTimeout] returns a context with its error set, the
    constructor frees it and keeps the pointer, so [isConnected()] is
    true, and [setValue], a lookup of any non-empty key and the destructor
    all use the freed context.  When the allocation itself failed the
    pointer is null and [isConnected()] is false. *)
Theorem failed_connection_leaves_freed_context
  (reply_to : list command -> command -> option redisReply)
  (errstr key value : string) (c : ascii) (values0 : list string) :
  let s := construct (ConnectionError errstr) in
  isConnected s = true
  /\ logger s = [LogError ("Failed to connect to redis server, error: "
                           ++ from_c_str errstr)]
  /\ setValue reply_to key value s = UseAfterFree
  /\ getValue reply_to (String c key) values0 s = UseAfterFree
  /\ getValue reply_to "" values0 s = Returns (false, []) s
  /\ destroy s = UseAfterFree
  /\ isConnected (construct AllocationFailed) = false
  /\ isConnected (construct Connected) = true.
Proof.
  cbv zeta. repeat split.
  unfold getValue, getAndProcessValue, getValue_single, redisCommand, isConnected.
  cbn [construct connContext_ andb negb RapidJsonProvider.is_empty].
  destruct (negb (back_is_star (String c key))); reflexivity.
Qed.

End RedisFacts.
